(** * Bitcoin transaction codec (src/src/lib.rs), shallow embedding

    Bytes are [Byte.byte]; the unsigned integer fields [u16], [u32] and
    [u64] are [Z] values whose range is stated where it matters; a [usize]
    offset or length is a [nat].  A Rust function returning
    [Result<T, BitcoinError>] becomes a function into [outcome T], which
    also records a panic (an out-of-bounds index or slice, an [unwrap] on
    [Err], or an arithmetic overflow), since a panic is not an [Err]. *)

From Stdlib Require Import String Ascii ZArith List Lia.
From Stdlib Require Import Strings.Byte.
From Stdlib Require DecimalString DecimalN.
Import ListNotations.

Open Scope bool_scope.
Open Scope Z_scope.

(** ** Errors and the result type *)

Inductive BitcoinError : Type :=
| InsufficientBytes
| InvalidFormat.

Inductive outcome (A : Type) : Type :=
| Ok (a : A)
| Err (e : BitcoinError)
| Panic.

Arguments Ok {A} a.
Arguments Err {A} e.
Arguments Panic {A}.

(** The [?] operator; a panic unwinds through every caller. *)
Definition obind {A B : Type} (m : outcome A) (f : A -> outcome B) : outcome B :=
  match m with
  | Ok a => f a
  | Err e => Err e
  | Panic => Panic
  end.

Notation "'let*' x ':=' m 'in' k" := (obind m (fun x => k))
  (at level 200, x pattern, m at level 100, right associativity).

(** ** Bytes, casts and little-endian integers *)

(** The numeric value of a [u8]. *)
Definition bv (b : byte) : Z := Z.of_N (Byte.to_N b).

(** [x as u8] for a non-negative integer [x]: its low eight bits. *)
Definition u8 (z : Z) : byte :=
  match Byte.of_N (Z.to_N (z mod 256)) with
  | Some b => b
  | None => x00
  end.

(** [n.to_le_bytes()] for an integer of [w] bytes: byte [i] is
    [(n >> 8 i) as u8]. *)
Fixpoint to_le (w : nat) (n : Z) : list byte :=
  match w with
  | O => []
  | S w' => u8 n :: to_le w' (Z.shiftr n 8)
  end.

(** [uN::from_le_bytes(..)] on the byte array of an [N]-bit integer. *)
Fixpoint from_le (l : list byte) : Z :=
  match l with
  | [] => 0
  | b :: l' => bv b + 256 * from_le l'
  end.

(** [bytes[i]]: panics when [i] is out of bounds. *)
Definition idx (bytes : list byte) (i : nat) : outcome byte :=
  match nth_error bytes i with
  | Some b => Ok b
  | None => Panic
  end.

(** [&bytes[a..b]]: panics unless [a <= b <= bytes.len()]. *)
Definition slice (bytes : list byte) (a b : nat) : outcome (list byte) :=
  if andb (Nat.leb a b) (Nat.leb b (length bytes))
  then Ok (firstn (b - a) (skipn a bytes))
  else Panic.

(** [&bytes[a..]]: panics when [a > bytes.len()]. *)
Definition slice_from (bytes : list byte) (a : nat) : outcome (list byte) :=
  if Nat.leb a (length bytes) then Ok (skipn a bytes) else Panic.

(** [xs.try_into().unwrap()] into a [[u8; n]] array. *)
Definition to_array (n : nat) (xs : list byte) : outcome (list byte) :=
  if Nat.eqb (length xs) n then Ok xs else Panic.

Lemma slice_ok (b : list byte) (i j : nat) :
  (i <= j <= length b)%nat -> slice b i j = Ok (firstn (j - i) (skipn i b)).
Proof.
  intros H. unfold slice.
  now rewrite (proj2 (Nat.leb_le i j)), (proj2 (Nat.leb_le j (length b))) by lia.
Qed.

Lemma slice_from_ok (b : list byte) (i : nat) :
  (i <= length b)%nat -> slice_from b i = Ok (skipn i b).
Proof. intros H. unfold slice_from. now rewrite (proj2 (Nat.leb_le _ _) H). Qed.

Lemma to_array_ok (n : nat) (xs : list byte) : length xs = n -> to_array n xs = Ok xs.
Proof. intros H. unfold to_array. now rewrite (proj2 (Nat.eqb_eq _ _) H). Qed.

(** ** CompactSize *)

Record CompactSize : Type := mkCompactSize { value : Z }.

Definition CompactSize_new (v : Z) : CompactSize := mkCompactSize v.

(** [CompactSize::to_bytes] *)
Definition CompactSize_to_bytes (self : CompactSize) : list byte :=
  let v := value self in
  if v <=? 252 then [u8 v]
  else if v <=? 65535 then xfd :: to_le 2 (v mod 2 ^ 16)
  else if v <=? 4294967295 then xfe :: to_le 4 (v mod 2 ^ 32)
  else xff :: to_le 8 v.

(** [CompactSize::from_bytes]: after the emptiness check it indexes the
    width bytes directly, without comparing them with [bytes.len()]. *)
Definition CompactSize_from_bytes (bytes : list byte)
  : outcome (CompactSize * nat) :=
  match bytes with
  | [] => Err InsufficientBytes
  | _ =>
    let* b0 := idx bytes 0 in
    let n := bv b0 in
    if n <=? 0xFC then Ok (CompactSize_new n, 1%nat)
    else if n =? 0xFD then
      let* b1 := idx bytes 1 in
      let* b2 := idx bytes 2 in
      Ok (CompactSize_new (from_le [b1; b2]), 3%nat)
    else if n =? 0xFE then
      let* b1 := idx bytes 1 in
      let* b2 := idx bytes 2 in
      let* b3 := idx bytes 3 in
      let* b4 := idx bytes 4 in
      Ok (CompactSize_new (from_le [b1; b2; b3; b4]), 5%nat)
    else
      let* b1 := idx bytes 1 in
      let* b2 := idx bytes 2 in
      let* b3 := idx bytes 3 in
      let* b4 := idx bytes 4 in
      let* b5 := idx bytes 5 in
      let* b6 := idx bytes 6 in
      let* b7 := idx bytes 7 in
      let* b8 := idx bytes 8 in
      Ok (CompactSize_new (from_le [b1; b2; b3; b4; b5; b6; b7; b8]), 9%nat)
  end.

(** [decode_compact_size] *)
Definition decode_compact_size (bytes : list byte) : outcome (Z * nat) :=
  match bytes with
  | [] => Err InsufficientBytes
  | _ =>
    let* b0 := idx bytes 0 in
    let n := bv b0 in
    if n <=? 0xFC then Ok (n, 1%nat)
    else if n =? 0xFD then
      if Nat.ltb (length bytes) 3 then Err InsufficientBytes
      else let* s := slice bytes 1 3 in
           let* a := to_array 2 s in
           Ok (from_le a, 3%nat)
    else if n =? 0xFE then
      if Nat.ltb (length bytes) 5 then Err InsufficientBytes
      else let* s := slice bytes 1 5 in
           let* a := to_array 4 s in
           Ok (from_le a, 5%nat)
    else
      if Nat.ltb (length bytes) 9 then Err InsufficientBytes
      else let* s := slice bytes 1 9 in
           let* a := to_array 8 s in
           Ok (from_le a, 9%nat)
  end.

(** [encode_compact_size] *)
Definition encode_compact_size (n : Z) : list byte :=
  if n <=? 0xFC then [u8 n]
  else if n <=? 0xFFFF then xfd :: to_le 2 (n mod 2 ^ 16)
  else if n <=? 0xFFFF_FFFF then xfe :: to_le 4 (n mod 2 ^ 32)
  else xff :: to_le 8 n.

(** ** Txid and OutPoint *)

(** [Txid(pub [u8; 32])]: the array is a list of bytes, of length 32 for a
    value the program can build. *)
Record Txid : Type := mkTxid { txid0 : list byte }.

Record OutPoint : Type := mkOutPoint { txid : Txid; vout : Z }.

Definition OutPoint_new (t : list byte) (v : Z) : OutPoint :=
  mkOutPoint (mkTxid t) v.

(** [OutPoint::to_bytes] *)
Definition OutPoint_to_bytes (self : OutPoint) : list byte :=
  txid0 (txid self) ++ to_le 4 (vout self).

(** [OutPoint::from_bytes] *)
Definition OutPoint_from_bytes (bytes : list byte) : outcome (OutPoint * nat) :=
  if Nat.ltb (length bytes) 36 then Err InsufficientBytes
  else
    let* t := slice bytes 0 32 in
    let* t := to_array 32 t in                 (* txid.copy_from_slice *)
    let* s := slice bytes 32 36 in
    let* a := to_array 4 s in
    Ok (OutPoint_new t (from_le a), 36%nat).

(** ** Script *)

Record Script : Type := mkScript { script_bytes : list byte }.

Definition Script_new (b : list byte) : Script := mkScript b.

(** [Script::to_bytes]; [len() as u64] is exact on a 64-bit target. *)
Definition Script_to_bytes (self : Script) : list byte :=
  encode_compact_size (Z.of_nat (length (script_bytes self))) ++ script_bytes self.

(** The width of [usize] on the 64-bit targets the crate is built for. *)
Definition usize_max : Z := 2 ^ 64 - 1.

(** [Script::from_bytes].  [prefix_len + len as usize] is an unchecked
    [usize] addition: it panics when it overflows (debug build).  In a
    release build it wraps to a value below [prefix_len], the length test
    then passes and the slice [bytes[prefix_len..total_len]] panics, so
    both builds panic there.  The length test is done on [Z] here, which is
    the same test as the Rust one on [usize] once no overflow occurred. *)
Definition Script_from_bytes (bytes : list byte) : outcome (Script * nat) :=
  let* (len, prefix_len) := decode_compact_size bytes in
  let total := Z.of_nat prefix_len + len in
  if usize_max <? total then Panic
  else if Z.of_nat (length bytes) <? total then Err InsufficientBytes
  else
    let total_len := Z.to_nat total in
    let* script_bytes := slice bytes prefix_len total_len in
    Ok (Script_new script_bytes, total_len).

(** ** TransactionInput *)

Record TransactionInput : Type := mkTransactionInput {
  previous_output : OutPoint;
  script_sig : Script;
  sequence : Z }.

(** [TransactionInput::to_bytes] *)
Definition TransactionInput_to_bytes (self : TransactionInput) : list byte :=
  OutPoint_to_bytes (previous_output self) ++ Script_to_bytes (script_sig self)
    ++ to_le 4 (sequence self).

(** [TransactionInput::from_bytes] *)
Definition TransactionInput_from_bytes (bytes : list byte)
  : outcome (TransactionInput * nat) :=
  let* (outpoint, outpoint_len) := OutPoint_from_bytes bytes in
  let* rest := slice_from bytes outpoint_len in
  let* (script_sig, script_len) := Script_from_bytes rest in
  let seq_start := (outpoint_len + script_len)%nat in
  if Nat.ltb (length bytes) (seq_start + 4) then Err InsufficientBytes
  else
    let* s := slice bytes seq_start (seq_start + 4) in
    let* a := to_array 4 s in
    Ok (mkTransactionInput outpoint script_sig (from_le a), (seq_start + 4)%nat).

(** ** BitcoinTransaction *)

Record BitcoinTransaction : Type := mkBitcoinTransaction {
  version : Z;
  inputs : list TransactionInput;
  lock_time : Z }.

(** [BitcoinTransaction::to_bytes] *)
Definition BitcoinTransaction_to_bytes (self : BitcoinTransaction) : list byte :=
  to_le 4 (version self)
    ++ encode_compact_size (Z.of_nat (length (inputs self)))
    ++ flat_map TransactionInput_to_bytes (inputs self)
    ++ to_le 4 (lock_time self).

(** The loop [for _ in 0..input_count] of [BitcoinTransaction::from_bytes],
    with [k] iterations left, the running [offset] and the vector [acc]
    built so far by [inputs.push]. *)
Fixpoint decode_inputs (k : nat) (bytes : list byte) (offset : nat)
    (acc : list TransactionInput) : outcome (list TransactionInput * nat) :=
  match k with
  | O => Ok (acc, offset)
  | S k' =>
    let* rest := slice_from bytes offset in
    let* (input, consumed) := TransactionInput_from_bytes rest in
    decode_inputs k' bytes (offset + consumed)%nat (acc ++ [input])
  end.

(** [BitcoinTransaction::from_bytes] *)
Definition BitcoinTransaction_from_bytes (bytes : list byte)
  : outcome (BitcoinTransaction * nat) :=
  if Nat.ltb (length bytes) 4 then Err InsufficientBytes
  else
    let* s := slice bytes 0 4 in
    let* a := to_array 4 s in
    let version := from_le a in
    let* rest := slice_from bytes 4 in
    let* (input_count, offset) := decode_compact_size rest in
    let offset := (offset + 4)%nat in
    let* (inputs, offset) := decode_inputs (Z.to_nat input_count) bytes offset [] in
    if Nat.ltb (length bytes) (offset + 4) then Err InsufficientBytes
    else
      let* s := slice bytes offset (offset + 4) in
      let* a := to_array 4 s in
      Ok (mkBitcoinTransaction version inputs (from_le a), (offset + 4)%nat).

(** ** The text form of [Txid] (serde, through the [hex] crate)

    [hex::encode] and [hex::decode] belong to the [hex] crate (0.4), a
    dependency: they are written here after its source.  A Rust [String]
    is given by its UTF-8 bytes, i.e. a [string] of 8-bit characters. *)

Inductive result (A E : Type) : Type :=
| ROk (a : A)
| RErr (e : E).

Arguments ROk {A E} a.
Arguments RErr {A E} e.

(** [hex::FromHexError] *)
Inductive FromHexError : Type :=
| InvalidHexCharacter (c : ascii) (index : nat)
| OddLength
| InvalidStringLength.

(** The deserializer error built by [serde::de::Error::custom]: from a
    [FromHexError] (its [Display] text) or from a message. *)
Inductive DeError : Type :=
| Custom_from (e : FromHexError)
| Custom (msg : string).

(** [HEX_CHARS_LOWER] *)
Definition HEX_CHARS_LOWER : string := "0123456789abcdef".

Definition hex_char (nibble : Z) : ascii :=
  match String.get (Z.to_nat nibble) HEX_CHARS_LOWER with
  | Some c => c
  | None => "0"%char
  end.

(** [hex::encode]: the high nibble of each byte, then the low one. *)
Fixpoint hex_encode (data : list byte) : string :=
  match data with
  | [] => EmptyString
  | b :: data' =>
    String (hex_char (bv b / 16)) (String (hex_char (bv b mod 16)) (hex_encode data'))
  end.

(** [hex::val] *)
Definition hex_val (c : ascii) (idx : nat) : result Z FromHexError :=
  let n := Z.of_nat (nat_of_ascii c) in
  if (65 <=? n) && (n <=? 70) then ROk (n - 65 + 10)          (* b'A'..=b'F' *)
  else if (97 <=? n) && (n <=? 102) then ROk (n - 97 + 10)    (* b'a'..=b'f' *)
  else if (48 <=? n) && (n <=? 57) then ROk (n - 48)          (* b'0'..=b'9' *)
  else RErr (InvalidHexCharacter c idx).

(** The pairs of [hex.chunks(2).enumerate()], decoded in order; [i] is the
    index of the current chunk, collection stops at the first error. *)
Fixpoint hex_decode_pairs (hex : string) (i : nat) : result (list byte) FromHexError :=
  match hex with
  | String c0 (String c1 hex') =>
    match hex_val c0 (2 * i) with
    | RErr e => RErr e
    | ROk hi =>
      match hex_val c1 (2 * i + 1) with
      | RErr e => RErr e
      | ROk lo =>
        match hex_decode_pairs hex' (S i) with
        | RErr e => RErr e
        | ROk rest => ROk (u8 (Z.lor (Z.shiftl hi 4) lo) :: rest)
        end
      end
    end
  | _ => ROk []
  end.

(** [hex::decode] *)
Definition hex_decode (hex : string) : result (list byte) FromHexError :=
  if Nat.odd (String.length hex) then RErr OddLength
  else hex_decode_pairs hex 0.

(** [<Txid as Serialize>::serialize]: the string handed to
    [serialize_str]. *)
Definition Txid_serialize (self : Txid) : string := hex_encode (txid0 self).

(** [<Txid as Deserialize>::deserialize], from the string read by
    [String::deserialize]. *)
Definition Txid_deserialize (hex_str : string) : result Txid DeError :=
  match hex_decode hex_str with
  | RErr e => RErr (Custom_from e)
  | ROk bytes =>
    if negb (Nat.eqb (length bytes) 32) then RErr (Custom "txid must be 32 bytes")
    else ROk (mkTxid bytes)
  end.

(** ** [Display for BitcoinTransaction]

    [{}] prints an unsigned integer in decimal, without leading zeros and
    as ["0"] for zero; [writeln!] ends each line with ['\n'].  Writing to
    the formatter of [to_string] never fails, so the [?] after each line
    never returns early and the text is the concatenation of the lines. *)

Definition dec (n : Z) : string :=
  DecimalString.NilZero.string_of_uint (N.to_uint (Z.to_N n)).

Definition dec_nat (n : nat) : string := dec (Z.of_nat n).

Definition nl : string := String (ascii_of_nat 10) EmptyString.

(** The five lines written for [(i, input)] of
    [self.inputs.iter().enumerate()]. *)
Definition fmt_input (i : nat) (input : TransactionInput) : string :=
  ("Input #" ++ dec_nat i ++ nl
   ++ "  Previous Output TXID: " ++ hex_encode (txid0 (txid (previous_output input))) ++ nl
   ++ "  Previous Output Vout: " ++ dec (vout (previous_output input)) ++ nl
   ++ "  ScriptSig (" ++ dec_nat (length (script_bytes (script_sig input))) ++ " bytes): "
   ++ hex_encode (script_bytes (script_sig input)) ++ nl
   ++ "  Sequence: " ++ dec (sequence input) ++ nl)%string.

(** The loop over the inputs, from index [i]. *)
Fixpoint fmt_inputs (i : nat) (l : list TransactionInput) : string :=
  match l with
  | [] => EmptyString
  | input :: l' => (fmt_input i input ++ fmt_inputs (S i) l')%string
  end.

(** [<BitcoinTransaction as Display>::fmt], as the text it writes. *)
Definition BitcoinTransaction_fmt (self : BitcoinTransaction) : string :=
  ("Version: " ++ dec (version self) ++ nl
   ++ fmt_inputs 0 (inputs self)
   ++ "Lock Time: " ++ dec (lock_time self) ++ nl)%string.

(** ** The values of the Rust types

    A [u32] field holds [0 <= v < 2^32], a [u64] field [0 <= v < 2^64], a
    [[u8; 32]] array 32 bytes, and a [Vec] at most [isize::MAX] elements. *)

Definition u32_range (v : Z) : Prop := 0 <= v < 2 ^ 32.

Definition isize_max : Z := 2 ^ 63 - 1.

Definition CompactSize_wf (c : CompactSize) : Prop := 0 <= value c < 2 ^ 64.

Definition OutPoint_wf (o : OutPoint) : Prop :=
  length (txid0 (txid o)) = 32%nat /\ u32_range (vout o).

Definition Script_wf (s : Script) : Prop :=
  Z.of_nat (length (script_bytes s)) <= isize_max.

Definition TransactionInput_wf (i : TransactionInput) : Prop :=
  OutPoint_wf (previous_output i) /\ Script_wf (script_sig i)
  /\ u32_range (sequence i).

Definition BitcoinTransaction_wf (t : BitcoinTransaction) : Prop :=
  u32_range (version t) /\ Forall TransactionInput_wf (inputs t)
  /\ Z.of_nat (length (inputs t)) <= isize_max /\ u32_range (lock_time t).

(** ** Readings of the spec, compared with the embedding above *)

(** The number of width bytes the spec assigns to a CompactSize prefix
    byte: none up to [0xFC], then 2, 4 and 8 for [0xFD], [0xFE], [0xFF]. *)
Definition spec_prefix_width (b0 : byte) : nat :=
  if bv b0 <=? 0xFC then 0
  else if bv b0 =? 0xFD then 2
  else if bv b0 =? 0xFE then 4
  else 8.

(** The value the spec assigns to a CompactSize starting with [b0]: the
    byte itself, or the little-endian integer in the width bytes. *)
Definition spec_prefix_value (b0 : byte) (rest : list byte) : Z :=
  if bv b0 <=? 0xFC then bv b0
  else from_le (firstn (spec_prefix_width b0) rest).

(** The inputs of a transaction buffer decoded one after another from
    offset [off], each where the previous one ended; [cs] lists the bytes
    each input consumed. *)
Inductive inputs_decoded (b : list byte)
  : nat -> list TransactionInput -> list nat -> Prop :=
| inputs_decoded_nil (off : nat) : inputs_decoded b off [] []
| inputs_decoded_cons (off : nat) (i : TransactionInput) (c : nat)
    (is : list TransactionInput) (cs : list nat) :
    TransactionInput_from_bytes (skipn off b) = Ok (i, c) ->
    inputs_decoded b (off + c) is cs ->
    inputs_decoded b off (i :: is) (c :: cs).

(** A hexadecimal digit, of either case. *)
Definition is_hex_char (c : ascii) : bool :=
  existsb (Ascii.eqb c) (list_ascii_of_string "0123456789abcdefABCDEF").

(** A lowercase hexadecimal digit. *)
Definition is_lower_hex_char (c : ascii) : bool :=
  existsb (Ascii.eqb c) (list_ascii_of_string "0123456789abcdef").

Definition all_lower_hex (s : string) : bool :=
  forallb is_lower_hex_char (list_ascii_of_string s).

(** A buffer too short for the CompactSize it starts with: empty, or with
    fewer bytes after the prefix byte than the prefix's width. *)
Definition compact_truncated (b : list byte) : Prop :=
  match b with
  | [] => True
  | b0 :: rest => (length rest < spec_prefix_width b0)%nat
  end.

(** The number of line ends ['\n'] in a text. *)
Fixpoint count_nl (s : string) : nat :=
  match s with
  | EmptyString => O
  | String c s' => ((if Ascii.eqb c (ascii_of_nat 10) then 1 else 0) + count_nl s')%nat
  end.

(** [hex::encode_upper]: [hex::encode] with the uppercase digits. *)
Definition hex_char_upper (nibble : Z) : ascii :=
  match String.get (Z.to_nat nibble) "0123456789ABCDEF" with
  | Some c => c
  | None => "0"%char
  end.

Fixpoint hex_encode_upper (data : list byte) : string :=
  match data with
  | [] => EmptyString
  | b :: data' =>
    String (hex_char_upper (bv b / 16))
      (String (hex_char_upper (bv b mod 16)) (hex_encode_upper data'))
  end.

(** ** Sample values *)

(** The transaction of the spec's full scenario: version 1, one input
    spending output [0xFFFFFFFF] of the all-zero identifier with an empty
    script and sequence [0xFFFFFFFF], lock time 0. *)
Definition sample_input : TransactionInput :=
  mkTransactionInput (OutPoint_new (repeat x00 32) 0xFFFF_FFFF) (Script_new [])
    0xFFFF_FFFF.

Definition sample_tx : BitcoinTransaction :=
  mkBitcoinTransaction 1 [sample_input] 0.

(** The bytes of [sample_tx] with the input count raised to 2: one input
    short. *)
Definition two_inputs_one_present : list byte :=
  [x01; x00; x00; x00; x02] ++ TransactionInput_to_bytes sample_input
    ++ [x00; x00; x00; x00].

(** The ASCII string of [n] copies of [c]. *)
Fixpoint string_repeat (n : nat) (c : ascii) : string :=
  match n with
  | O => EmptyString
  | S n' => String c (string_repeat n' c)
  end.

(** * Lemmas *)

(** ** Bytes and little-endian integers *)

Lemma bv_range (b : byte) : 0 <= bv b < 256.
Proof. unfold bv. pose proof (Byte.to_N_bounded b). lia. Qed.

Lemma bv_u8 (z : Z) : bv (u8 z) = z mod 256.
Proof.
  unfold u8, bv. pose proof (Z.mod_pos_bound z 256 ltac:(lia)) as Hm.
  destruct (Byte.of_N (Z.to_N (z mod 256))) as [b|] eqn:E.
  - apply Byte.to_of_N in E. rewrite E. lia.
  - apply Byte.of_N_None_iff in E. lia.
Qed.

Lemma u8_bv (b : byte) : u8 (bv b) = b.
Proof.
  unfold u8. pose proof (bv_range b) as Hr.
  rewrite Z.mod_small by exact Hr. unfold bv. rewrite N2Z.id.
  now rewrite Byte.of_to_N.
Qed.

Lemma length_to_le (w : nat) (n : Z) : length (to_le w n) = w.
Proof. revert n; induction w; intros n; simpl; auto. Qed.

Lemma from_to_le (w : nat) (n : Z) :
  0 <= n < 2 ^ (8 * Z.of_nat w) -> from_le (to_le w n) = n.
Proof.
  revert n; induction w as [|w IH]; intros n Hn; cbn [to_le from_le].
  - simpl in Hn. lia.
  - rewrite bv_u8, IH.
    + rewrite Z.shiftr_div_pow2 by lia.
      pose proof (Z.div_mod n 256 ltac:(lia)). change (2 ^ 8) with 256. lia.
    + rewrite Z.shiftr_div_pow2 by lia. change (2 ^ 8) with 256. split.
      * apply Z.div_pos; lia.
      * apply Z.div_lt_upper_bound; [lia|].
        rewrite Nat2Z.inj_succ in Hn.
        replace (8 * Z.succ (Z.of_nat w)) with (8 + 8 * Z.of_nat w) in Hn by lia.
        rewrite Z.pow_add_r in Hn by lia. exact (proj2 Hn).
Qed.

Lemma from_le_range (l : list byte) :
  0 <= from_le l < 2 ^ (8 * Z.of_nat (length l)).
Proof.
  induction l as [|b l IH]; cbn [from_le length].
  - simpl. lia.
  - pose proof (bv_range b).
    rewrite Nat2Z.inj_succ.
    replace (8 * Z.succ (Z.of_nat (length l)))
      with (8 + 8 * Z.of_nat (length l)) by lia.
    rewrite Z.pow_add_r by lia. change (2 ^ 8) with 256. nia.
Qed.

(** ** Indexing and slicing *)

Lemma idx_app (b s : list byte) (i : nat) (x : byte) :
  idx b i = Ok x -> idx (b ++ s) i = Ok x.
Proof.
  unfold idx. destruct (nth_error b i) eqn:E; intros H; [|discriminate].
  rewrite nth_error_app1 by (apply nth_error_Some; congruence).
  now rewrite E.
Qed.

Lemma slice_app (b s : list byte) (i j : nat) (x : list byte) :
  slice b i j = Ok x -> slice (b ++ s) i j = Ok x.
Proof.
  unfold slice. rewrite length_app.
  destruct (Nat.leb i j) eqn:E1, (Nat.leb j (length b)) eqn:E2;
    simpl; intros H; try discriminate.
  apply Nat.leb_le in E1, E2.
  replace (Nat.leb j (length b + length s)) with true
    by (symmetry; apply Nat.leb_le; lia).
  rewrite skipn_app, (proj2 (Nat.sub_0_le i (length b))) by lia.
  rewrite firstn_app, length_skipn.
  replace (j - i - (length b - i))%nat with 0%nat by lia.
  rewrite app_nil_r. exact H.
Qed.

Lemma slice_from_app (b s : list byte) (i : nat) (x : list byte) :
  slice_from b i = Ok x -> slice_from (b ++ s) i = Ok (x ++ s).
Proof.
  unfold slice_from. rewrite length_app.
  destruct (Nat.leb i (length b)) eqn:E; intros H; [|discriminate].
  apply Nat.leb_le in E. injection H as <-.
  replace (Nat.leb i (length b + length s)) with true
    by (symmetry; apply Nat.leb_le; lia).
  rewrite skipn_app, (proj2 (Nat.sub_0_le i (length b))) by lia. reflexivity.
Qed.

(** ** CompactSize *)

Lemma CompactSize_to_bytes_encode (c : CompactSize) :
  CompactSize_to_bytes c = encode_compact_size (value c).
Proof. reflexivity. Qed.

(** The little-endian part of an encoding, as a list of its length. *)
Ltac le_bytes w n :=
  let l := fresh "l" in
  let Hl := fresh "Hl" in
  let Hv := fresh "Hv" in
  set (l := to_le w n) in *;
  assert (Hl : length l = w) by apply length_to_le;
  assert (Hv : from_le l = n) by
    (apply from_to_le; simpl; first [apply Z.mod_pos_bound; lia | lia]);
  clearbody l.

Lemma decode_compact_size_encode (n : Z) :
  0 <= n < 2 ^ 64 ->
  decode_compact_size (encode_compact_size n) =
    Ok (n, length (encode_compact_size n)).
Proof.
  intros Hn. unfold encode_compact_size.
  destruct (Z.leb_spec n 0xFC) as [H1|H1].
  - cbn -[u8 bv]. rewrite bv_u8, Z.mod_small by lia.
    now rewrite (proj2 (Z.leb_le _ _) H1).
  - destruct (Z.leb_spec n 0xFFFF) as [H2|H2];
      [|destruct (Z.leb_spec n 0xFFFF_FFFF) as [H3|H3]].
    + le_bytes 2%nat (n mod 2 ^ 16).
      destruct l as [|a [|b [|c l]]]; try discriminate.
      cbn -[from_le]. rewrite Hv, Z.mod_small by lia. reflexivity.
    + le_bytes 4%nat (n mod 2 ^ 32).
      destruct l as [|a [|b [|c [|d [|e l]]]]]; try discriminate.
      cbn -[from_le]. rewrite Hv, Z.mod_small by lia. reflexivity.
    + le_bytes 8%nat n.
      destruct l as [|a [|b [|c [|d [|e [|f [|g [|h [|i l]]]]]]]]];
        try discriminate.
      cbn -[from_le]. rewrite Hv. reflexivity.
Qed.

Lemma CompactSize_from_bytes_encode (n : Z) :
  0 <= n < 2 ^ 64 ->
  CompactSize_from_bytes (encode_compact_size n) =
    Ok (CompactSize_new n, length (encode_compact_size n)).
Proof.
  intros Hn. unfold encode_compact_size.
  destruct (Z.leb_spec n 0xFC) as [H1|H1].
  - cbn -[u8 bv]. rewrite bv_u8, Z.mod_small by lia.
    now rewrite (proj2 (Z.leb_le _ _) H1).
  - destruct (Z.leb_spec n 0xFFFF) as [H2|H2];
      [|destruct (Z.leb_spec n 0xFFFF_FFFF) as [H3|H3]].
    + le_bytes 2%nat (n mod 2 ^ 16).
      destruct l as [|a [|b [|c l]]]; try discriminate.
      cbn -[from_le]. rewrite Hv, Z.mod_small by lia. reflexivity.
    + le_bytes 4%nat (n mod 2 ^ 32).
      destruct l as [|a [|b [|c [|d [|e l]]]]]; try discriminate.
      cbn -[from_le]. rewrite Hv, Z.mod_small by lia. reflexivity.
    + le_bytes 8%nat n.
      destruct l as [|a [|b [|c [|d [|e [|f [|g [|h [|i l]]]]]]]]];
        try discriminate.
      cbn -[from_le]. rewrite Hv. reflexivity.
Qed.

(** A branch of a decoder that tests the length of its buffer and then
    slices it keeps its result when bytes are appended. *)
Lemma checked_slice_app {A : Type} (b s : list byte) (w i j : nat)
    (k : list byte -> outcome A) (r : A) :
  (if Nat.ltb (length b) w then Err InsufficientBytes else obind (slice b i j) k)
    = Ok r ->
  (if Nat.ltb (length (b ++ s)) w then Err InsufficientBytes
   else obind (slice (b ++ s) i j) k) = Ok r.
Proof.
  destruct (Nat.ltb_spec (length b) w); [discriminate|].
  rewrite (proj2 (Nat.ltb_ge _ _)) by (rewrite length_app; lia).
  destruct (slice b i j) eqn:Es; try discriminate.
  now rewrite (slice_app b s i j _ Es).
Qed.

Lemma decode_compact_size_app (b s : list byte) (r : Z * nat) :
  decode_compact_size b = Ok r -> decode_compact_size (b ++ s) = Ok r.
Proof.
  destruct b as [|b0 b]; [discriminate|].
  unfold decode_compact_size.
  change ((b0 :: b) ++ s) with (b0 :: (b ++ s)).
  cbn [idx nth_error obind].
  destruct (bv b0 <=? 0xFC); [auto|].
  change (b0 :: (b ++ s)) with ((b0 :: b) ++ s).
  destruct (bv b0 =? 0xFD); [|destruct (bv b0 =? 0xFE)];
    apply checked_slice_app.
Qed.

Lemma decode_compact_size_consumed (b : list byte) (v : Z) (w : nat) :
  decode_compact_size b = Ok (v, w) -> (1 <= w <= 9)%nat /\ (w <= length b)%nat.
Proof.
  destruct b as [|b0 b]; [discriminate|].
  unfold decode_compact_size. cbn [idx nth_error obind].
  destruct (bv b0 <=? 0xFC).
  { intros H; injection H as _ <-. simpl. lia. }
  destruct (bv b0 =? 0xFD); [|destruct (bv b0 =? 0xFE)];
    (match goal with |- context [Nat.ltb ?x ?y] =>
       destruct (Nat.ltb_spec x y); [discriminate|] end);
    unfold obind;
    repeat match goal with
           | |- context [match ?m with Ok _ => _ | Err _ => _ | Panic => _ end] =>
             destruct m; try discriminate
           end;
    intros Hr; injection Hr as _ <-; lia.
Qed.

(** ** OutPoint *)

Lemma OutPoint_from_bytes_short (b : list byte) :
  (length b < 36)%nat -> OutPoint_from_bytes b = Err InsufficientBytes.
Proof.
  intros H. unfold OutPoint_from_bytes.
  now rewrite (proj2 (Nat.ltb_lt _ _) H).
Qed.

Lemma OutPoint_from_bytes_long (b : list byte) :
  (36 <= length b)%nat ->
  OutPoint_from_bytes b =
    Ok (OutPoint_new (firstn 32 b) (from_le (firstn 4 (skipn 32 b))), 36%nat).
Proof.
  intros H. unfold OutPoint_from_bytes.
  rewrite (proj2 (Nat.ltb_ge _ _) H).
  unfold slice.
  rewrite (proj2 (Nat.leb_le 32 (length b))) by lia.
  rewrite (proj2 (Nat.leb_le 36 (length b))) by lia.
  change (Nat.leb 0 32) with true. change (Nat.leb 32 36) with true.
  change (32 - 0)%nat with 32%nat. change (36 - 32)%nat with 4%nat.
  change (skipn 0 b) with b. cbn [andb obind]. unfold to_array.
  rewrite length_firstn, length_firstn, length_skipn.
  replace (Nat.min 32 (length b)) with 32%nat by lia.
  replace (Nat.min 4 (length b - 32)) with 4%nat by lia.
  reflexivity.
Qed.

Lemma OutPoint_from_bytes_app (b s : list byte) (r : OutPoint * nat) :
  OutPoint_from_bytes b = Ok r -> OutPoint_from_bytes (b ++ s) = Ok r.
Proof.
  destruct (Nat.ltb_spec (length b) 36) as [H|H].
  - rewrite OutPoint_from_bytes_short by exact H. discriminate.
  - rewrite OutPoint_from_bytes_long by exact H. intros Hr.
    rewrite OutPoint_from_bytes_long by (rewrite length_app; lia).
    rewrite firstn_app, skipn_app, firstn_app, length_skipn.
    replace (32 - length b)%nat with 0%nat by lia.
    replace (4 - (length b - 32))%nat with 0%nat by lia.
    now rewrite !app_nil_r.
Qed.

Lemma OutPoint_from_bytes_consumed (b : list byte) (o : OutPoint) (n : nat) :
  OutPoint_from_bytes b = Ok (o, n) -> n = 36%nat /\ (36 <= length b)%nat.
Proof.
  destruct (Nat.ltb_spec (length b) 36) as [H|H].
  - rewrite OutPoint_from_bytes_short by exact H. discriminate.
  - rewrite OutPoint_from_bytes_long by exact H.
    intros Hr. injection Hr as _ <-. auto.
Qed.

Lemma length_OutPoint_to_bytes (o : OutPoint) :
  OutPoint_wf o -> length (OutPoint_to_bytes o) = 36%nat.
Proof.
  intros [Ht _]. unfold OutPoint_to_bytes.
  now rewrite length_app, Ht, length_to_le.
Qed.

Lemma OutPoint_roundtrip_app (o : OutPoint) (s : list byte) :
  OutPoint_wf o ->
  OutPoint_from_bytes (OutPoint_to_bytes o ++ s) = Ok (o, 36%nat).
Proof.
  intros Hw. pose proof (length_OutPoint_to_bytes o Hw) as Hl.
  destruct Hw as [Ht Hv].
  rewrite OutPoint_from_bytes_long by (rewrite length_app; lia).
  unfold OutPoint_to_bytes. rewrite <- app_assoc.
  rewrite firstn_app, skipn_app, Ht, firstn_all2 by lia.
  rewrite Nat.sub_diag, firstn_0, app_nil_r, skipn_0.
  rewrite skipn_all2 by lia. rewrite app_nil_l.
  rewrite firstn_app, length_to_le, firstn_all2 by (rewrite length_to_le; lia).
  rewrite Nat.sub_diag, firstn_0, app_nil_r.
  rewrite from_to_le by (simpl; exact Hv).
  now destruct o as [[t] v].
Qed.

(** ** Script *)

Lemma length_encode_compact_size (n : Z) :
  (1 <= length (encode_compact_size n) <= 9)%nat.
Proof.
  unfold encode_compact_size.
  destruct (n <=? 0xFC); [simpl; lia|].
  destruct (n <=? 0xFFFF); [|destruct (n <=? 0xFFFF_FFFF)];
    cbn [length]; rewrite length_to_le; lia.
Qed.

Lemma Script_from_bytes_app (b s : list byte) (r : Script * nat) :
  Script_from_bytes b = Ok r -> Script_from_bytes (b ++ s) = Ok r.
Proof.
  unfold Script_from_bytes.
  destruct (decode_compact_size b) as [[len p]| |] eqn:E; try discriminate.
  rewrite (decode_compact_size_app b s _ E). cbn [obind].
  destruct (usize_max <? Z.of_nat p + len); [discriminate|].
  destruct (Z.ltb_spec (Z.of_nat (length b)) (Z.of_nat p + len)); [discriminate|].
  rewrite (proj2 (Z.ltb_ge _ _)) by (rewrite length_app; lia).
  destruct (slice b p _) eqn:Es; try discriminate.
  now rewrite (slice_app b s _ _ _ Es).
Qed.

Lemma Script_from_bytes_consumed (b : list byte) (sc : Script) (n : nat) :
  Script_from_bytes b = Ok (sc, n) -> (n <= length b)%nat.
Proof.
  unfold Script_from_bytes.
  destruct (decode_compact_size b) as [[len p]| |] eqn:E; try discriminate.
  cbn [obind].
  destruct (usize_max <? Z.of_nat p + len); [discriminate|].
  destruct (Z.ltb_spec (Z.of_nat (length b)) (Z.of_nat p + len)); [discriminate|].
  destruct (slice b p _); try discriminate.
  intros Hr. injection Hr as _ <-. lia.
Qed.

Lemma Script_roundtrip (sc : Script) :
  Script_wf sc ->
  Script_from_bytes (Script_to_bytes sc) = Ok (sc, length (Script_to_bytes sc)).
Proof.
  unfold Script_wf, isize_max. intros Hw.
  destruct sc as [bs]. unfold Script_to_bytes, Script_from_bytes.
  cbn [script_bytes] in *.
  set (len := Z.of_nat (length bs)).
  assert (Hlen : 0 <= len < 2 ^ 64) by (unfold len; lia).
  rewrite (decode_compact_size_app _ bs _ (decode_compact_size_encode len Hlen)).
  cbn [obind].
  set (enc := encode_compact_size len) in *.
  pose proof (length_encode_compact_size len) as He. fold enc in He.
  rewrite (proj2 (Z.ltb_ge _ _)) by (unfold usize_max, len; lia).
  rewrite (proj2 (Z.ltb_ge _ _)) by (rewrite length_app; unfold len; lia).
  replace (Z.to_nat (Z.of_nat (length enc) + len)) with (length enc + length bs)%nat
    by (unfold len; lia).
  unfold slice.
  rewrite (proj2 (Nat.leb_le _ _)) by lia.
  rewrite (proj2 (Nat.leb_le _ _)) by (rewrite length_app; lia).
  cbn [andb obind].
  replace (length enc + length bs - length enc)%nat with (length bs) by lia.
  rewrite skipn_app, skipn_all2, Nat.sub_diag, skipn_0, app_nil_l by lia.
  rewrite firstn_all2 by lia.
  now rewrite length_app.
Qed.

(** ** TransactionInput *)

Lemma TransactionInput_from_bytes_app (b s : list byte) (r : TransactionInput * nat) :
  TransactionInput_from_bytes b = Ok r -> TransactionInput_from_bytes (b ++ s) = Ok r.
Proof.
  unfold TransactionInput_from_bytes.
  destruct (OutPoint_from_bytes b) as [[o n]| |] eqn:Eo; try discriminate.
  rewrite (OutPoint_from_bytes_app b s _ Eo). cbn [obind].
  destruct (slice_from b n) as [x| |] eqn:Ex; try discriminate.
  rewrite (slice_from_app b s n x Ex). cbn [obind].
  destruct (Script_from_bytes x) as [[sc m]| |] eqn:Es; try discriminate.
  rewrite (Script_from_bytes_app x s _ Es). cbn [obind].
  apply checked_slice_app.
Qed.

Lemma TransactionInput_from_bytes_consumed (b : list byte) (i : TransactionInput) (n : nat) :
  TransactionInput_from_bytes b = Ok (i, n) -> (40 <= n <= length b)%nat.
Proof.
  unfold TransactionInput_from_bytes.
  destruct (OutPoint_from_bytes b) as [[o k]| |] eqn:Eo; try discriminate.
  apply OutPoint_from_bytes_consumed in Eo as [-> _]. cbn [obind].
  destruct (slice_from b 36) as [x| |]; try discriminate. cbn [obind].
  destruct (Script_from_bytes x) as [[sc m]| |]; try discriminate. cbn [obind].
  destruct (Nat.ltb_spec (length b) (36 + m + 4)); [discriminate|].
  destruct (slice _ _ _); try discriminate. cbn [obind].
  destruct (to_array _ _); try discriminate. cbn [obind].
  intros Hr. injection Hr as _ <-. lia.
Qed.

Lemma TransactionInput_roundtrip (i : TransactionInput) :
  TransactionInput_wf i ->
  TransactionInput_from_bytes (TransactionInput_to_bytes i) =
    Ok (i, length (TransactionInput_to_bytes i)).
Proof.
  intros (Ho & Hs & Hq).
  destruct i as [o sc q]. cbn [previous_output script_sig sequence] in *.
  unfold TransactionInput_to_bytes. cbn [previous_output script_sig sequence].
  set (ob := OutPoint_to_bytes o). set (sb := Script_to_bytes sc).
  pose proof (length_OutPoint_to_bytes o Ho) as Hol. fold ob in Hol.
  unfold TransactionInput_from_bytes.
  unfold ob. rewrite (OutPoint_roundtrip_app o _ Ho).
  fold ob. cbn [obind]. unfold slice_from.
  rewrite (proj2 (Nat.leb_le _ _)) by (rewrite length_app; lia).
  cbn [obind]. rewrite skipn_app, skipn_all2, Hol, Nat.sub_diag, skipn_0, app_nil_l
    by lia.
  unfold sb. rewrite (Script_from_bytes_app _ _ _ (Script_roundtrip sc Hs)).
  fold sb. cbn [obind].
  rewrite !length_app, length_to_le, Hol.
  rewrite (proj2 (Nat.ltb_ge _ _)) by lia.
  unfold slice.
  rewrite (proj2 (Nat.leb_le _ _)) by lia.
  rewrite (proj2 (Nat.leb_le _ _)) by (rewrite !length_app, length_to_le; lia).
  cbn [andb obind].
  replace (36 + length sb + 4 - (36 + length sb))%nat with 4%nat by lia.
  replace (36 + length sb)%nat with (length (ob ++ sb))
    by (rewrite length_app; lia).
  rewrite app_assoc, skipn_app, skipn_all2, Nat.sub_diag, skipn_0, app_nil_l by lia.
  rewrite firstn_all2 by (rewrite length_to_le; lia).
  unfold to_array. rewrite length_to_le. cbn [Nat.eqb obind].
  rewrite from_to_le by (simpl; exact Hq).
  rewrite length_app, Hol. reflexivity.
Qed.

(** ** BitcoinTransaction *)

Lemma decode_inputs_app (k : nat) (b s : list byte) (off : nat)
    (acc : list TransactionInput) (r : list TransactionInput * nat) :
  decode_inputs k b off acc = Ok r -> decode_inputs k (b ++ s) off acc = Ok r.
Proof.
  revert off acc; induction k as [|k IH]; intros off acc; cbn [decode_inputs]; auto.
  destruct (slice_from b off) as [x| |] eqn:Ex; try discriminate.
  rewrite (slice_from_app b s off x Ex). cbn [obind].
  destruct (TransactionInput_from_bytes x) as [[i c]| |] eqn:Ei; try discriminate.
  rewrite (TransactionInput_from_bytes_app x s _ Ei). cbn [obind].
  apply IH.
Qed.

Lemma BitcoinTransaction_from_bytes_app (b s : list byte) (r : BitcoinTransaction * nat) :
  BitcoinTransaction_from_bytes b = Ok r -> BitcoinTransaction_from_bytes (b ++ s) = Ok r.
Proof.
  unfold BitcoinTransaction_from_bytes.
  destruct (Nat.ltb_spec (length b) 4); [discriminate|].
  rewrite (proj2 (Nat.ltb_ge _ _)) by (rewrite length_app; lia).
  destruct (slice b 0 4) as [x| |] eqn:Ex; try discriminate.
  rewrite (slice_app b s _ _ _ Ex). cbn [obind].
  destruct (to_array 4 x); try discriminate. cbn [obind].
  destruct (slice_from b 4) as [y| |] eqn:Ey; try discriminate.
  rewrite (slice_from_app b s _ _ Ey). cbn [obind].
  destruct (decode_compact_size y) as [[cnt w]| |] eqn:Ed; try discriminate.
  rewrite (decode_compact_size_app y s _ Ed). cbn [obind].
  destruct (decode_inputs _ b _ []) as [[ins off]| |] eqn:Ei; try discriminate.
  rewrite (decode_inputs_app _ b s _ _ _ Ei). cbn [obind].
  apply checked_slice_app.
Qed.

Lemma BitcoinTransaction_from_bytes_consumed (b : list byte) (t : BitcoinTransaction) (n : nat) :
  BitcoinTransaction_from_bytes b = Ok (t, n) -> (n <= length b)%nat.
Proof.
  unfold BitcoinTransaction_from_bytes.
  destruct (Nat.ltb (length b) 4); [discriminate|].
  destruct (slice b 0 4); try discriminate. cbn [obind].
  destruct (to_array 4 _); try discriminate. cbn [obind].
  destruct (slice_from b 4); try discriminate. cbn [obind].
  destruct (decode_compact_size _) as [[cnt w]| |]; try discriminate. cbn [obind].
  destruct (decode_inputs _ b _ []) as [[ins off]| |]; try discriminate. cbn [obind].
  destruct (Nat.ltb_spec (length b) (off + 4)); [discriminate|].
  destruct (slice _ _ _); try discriminate. cbn [obind].
  destruct (to_array 4 _); try discriminate. cbn [obind].
  intros Hr. injection Hr as _ <-. lia.
Qed.

Lemma decode_inputs_roundtrip (l : list TransactionInput) (pre post : list byte)
    (acc : list TransactionInput) :
  Forall TransactionInput_wf l ->
  decode_inputs (length l) (pre ++ flat_map TransactionInput_to_bytes l ++ post)
    (length pre) acc
  = Ok (acc ++ l, (length pre + length (flat_map TransactionInput_to_bytes l))%nat).
Proof.
  intros Hw. revert pre acc.
  induction Hw as [|i l Hi Hl IH]; intros pre acc; cbn [decode_inputs length flat_map].
  - now rewrite app_nil_r, Nat.add_0_r.
  - unfold slice_from.
    rewrite (proj2 (Nat.leb_le _ _)) by (rewrite length_app; lia).
    cbn [obind].
    rewrite skipn_app, skipn_all2, Nat.sub_diag, skipn_0, app_nil_l by lia.
    rewrite <- app_assoc.
    rewrite (TransactionInput_from_bytes_app _ _ _ (TransactionInput_roundtrip i Hi)).
    cbn [obind].
    rewrite app_assoc, <- length_app, IH.
    rewrite <- app_assoc, !length_app, Nat.add_assoc. reflexivity.
Qed.

Lemma BitcoinTransaction_roundtrip (t : BitcoinTransaction) :
  BitcoinTransaction_wf t ->
  BitcoinTransaction_from_bytes (BitcoinTransaction_to_bytes t) =
    Ok (t, length (BitcoinTransaction_to_bytes t)).
Proof.
  intros (Hv & Hins & Hn & Hlt). unfold isize_max in Hn.
  destruct t as [v ins lt]. cbn [version inputs lock_time] in *.
  unfold BitcoinTransaction_to_bytes. cbn [version inputs lock_time].
  set (cnt := Z.of_nat (length ins)) in *.
  set (enc := encode_compact_size cnt).
  set (body := flat_map TransactionInput_to_bytes ins).
  set (tl := to_le 4 lt).
  assert (Hc : 0 <= cnt < 2 ^ 64) by (unfold cnt; lia).
  pose proof (length_encode_compact_size cnt) as He. fold enc in He.
  assert (Htl : length tl = 4%nat) by apply length_to_le.
  unfold BitcoinTransaction_from_bytes.
  rewrite (proj2 (Nat.ltb_ge _ _)) by (rewrite length_app, length_to_le; lia).
  unfold slice. change (Nat.leb 0 4) with true.
  rewrite (proj2 (Nat.leb_le 4 _)) by (rewrite length_app, length_to_le; lia).
  cbn [andb obind]. change (4 - 0)%nat with 4%nat. rewrite skipn_0.
  rewrite firstn_app, length_to_le, firstn_all2, Nat.sub_diag, firstn_0, app_nil_r
    by (rewrite length_to_le; lia).
  unfold to_array. rewrite length_to_le. cbn [Nat.eqb obind].
  rewrite from_to_le by (simpl; exact Hv).
  unfold slice_from. rewrite (proj2 (Nat.leb_le _ _)) by (rewrite length_app, length_to_le; lia).
  cbn [obind].
  rewrite skipn_app, skipn_all2, length_to_le, Nat.sub_diag, skipn_0, app_nil_l
    by (rewrite length_to_le; lia).
  unfold enc. rewrite (decode_compact_size_app _ _ _ (decode_compact_size_encode cnt Hc)).
  fold enc. cbn [obind].
  replace (Z.to_nat cnt) with (length ins) by (unfold cnt; lia).
  replace (length enc + 4)%nat with (length (to_le 4 v ++ enc))
    by (rewrite length_app, length_to_le; lia).
  rewrite app_assoc.
  unfold body. rewrite (decode_inputs_roundtrip ins (to_le 4 v ++ enc) tl [] Hins).
  fold body. cbn [obind app].
  rewrite !length_app, length_to_le, Htl.
  rewrite (proj2 (Nat.ltb_ge _ _)) by lia.
  rewrite (proj2 (Nat.leb_le _ _)) by lia.
  rewrite (proj2 (Nat.leb_le _ _)) by lia.
  cbn [andb obind].
  replace (4 + length enc + length body + 4 - (4 + length enc + length body))%nat
    with 4%nat by lia.
  replace (4 + length enc + length body)%nat with (length ((to_le 4 v ++ enc) ++ body))
    by (rewrite !length_app, length_to_le; lia).
  rewrite <- app_assoc, (app_assoc _ body tl), app_assoc.
  rewrite skipn_app, skipn_all2, Nat.sub_diag, skipn_0, app_nil_l by lia.
  rewrite firstn_all2 by lia.
  rewrite Htl. cbn [Nat.eqb obind].
  unfold tl. rewrite from_to_le by (simpl; exact Hlt).
  rewrite !length_app, length_to_le. f_equal. f_equal. lia.
Qed.

(** The loop of [BitcoinTransaction::from_bytes] runs through the inputs
    of [inputs_decoded] one iteration each. *)
Lemma decode_inputs_decoded (b : list byte) (off : nat) (is : list TransactionInput)
    (cs : list nat) (k : nat) (acc : list TransactionInput) :
  inputs_decoded b off is cs -> (off <= length b)%nat ->
  decode_inputs (length is + k) b off acc
  = decode_inputs k b (off + list_sum cs) (acc ++ is).
Proof.
  intros H. revert k acc.
  induction H as [off|off i c is cs Hi Hrest IH]; intros k acc Hoff.
  - now rewrite app_nil_r, Nat.add_0_r.
  - cbn [length Nat.add decode_inputs]. unfold slice_from.
    rewrite (proj2 (Nat.leb_le _ _) Hoff). cbn [obind]. rewrite Hi. cbn [obind].
    pose proof (TransactionInput_from_bytes_consumed _ _ _ Hi) as Hc.
    rewrite length_skipn in Hc.
    rewrite IH by lia. cbn [list_sum fold_right].
    now rewrite Nat.add_assoc, <- app_assoc.
Qed.

Lemma inputs_decoded_bound (b : list byte) (off : nat) (is : list TransactionInput)
    (cs : list nat) :
  inputs_decoded b off is cs -> (off <= length b)%nat ->
  (off + list_sum cs <= length b)%nat.
Proof.
  induction 1 as [off|off i c is cs Hi Hrest IH]; intros Hoff.
  - cbn. lia.
  - change (list_sum (c :: cs)) with (c + list_sum cs)%nat.
    pose proof (TransactionInput_from_bytes_consumed _ _ _ Hi) as Hc.
    rewrite length_skipn in Hc. specialize (IH ltac:(lia)). lia.
Qed.

(** ** CompactSize decoding never reports [InvalidFormat] *)

Ltac outcome_cases :=
  repeat match goal with
         | |- context [match ?m with Some _ => _ | None => _ end] =>
           destruct m; cbn beta iota
         | |- context [if ?c then _ else _] => destruct c; cbn beta iota
         | |- context [match ?m with [] => _ | _ :: _ => _ end] => destruct m
         | |- context [match ?m with Ok _ => _ | Err _ => _ | Panic => _ end] =>
           destruct m; cbn beta iota
         end.

Lemma CompactSize_from_bytes_not_invalid (b : list byte) :
  CompactSize_from_bytes b <> Err InvalidFormat.
Proof.
  unfold CompactSize_from_bytes, obind, idx. outcome_cases; discriminate.
Qed.

Lemma decode_compact_size_not_invalid (b : list byte) :
  decode_compact_size b <> Err InvalidFormat.
Proof.
  unfold decode_compact_size, obind, idx, slice, to_array.
  outcome_cases; discriminate.
Qed.

Lemma compact_size_prefix_decode (b0 : byte) (rest : list byte) :
  (spec_prefix_width b0 <= length rest)%nat ->
  CompactSize_from_bytes (b0 :: rest)
    = Ok (CompactSize_new (spec_prefix_value b0 rest), S (spec_prefix_width b0))
  /\ decode_compact_size (b0 :: rest)
    = Ok (spec_prefix_value b0 rest, S (spec_prefix_width b0)).
Proof.
  unfold spec_prefix_value, spec_prefix_width. intros H.
  unfold CompactSize_from_bytes, decode_compact_size. cbn [idx nth_error obind].
  destruct (bv b0 <=? 0xFC); [split; reflexivity|].
  destruct (bv b0 =? 0xFD); [|destruct (bv b0 =? 0xFE)].
  - destruct rest as [|r1 [|r2 rest]]; cbn [length] in H; try lia.
    split; reflexivity.
  - destruct rest as [|r1 [|r2 [|r3 [|r4 rest]]]]; cbn [length] in H; try lia.
    split; reflexivity.
  - destruct rest as [|r1 [|r2 [|r3 [|r4 [|r5 [|r6 [|r7 [|r8 rest]]]]]]]];
      cbn [length] in H; try lia.
    split; reflexivity.
Qed.

(** ** Hexadecimal text *)

Lemma hex_decode_pairs_byte (b : byte) (s : string) (i : nat) :
  hex_decode_pairs (String (hex_char (bv b / 16)) (String (hex_char (bv b mod 16)) s)) i
  = match hex_decode_pairs s (S i) with
    | RErr e => RErr e
    | ROk rest => ROk (b :: rest)
    end.
Proof. destruct b; reflexivity. Qed.

Lemma hex_decode_pairs_encode (l : list byte) (i : nat) :
  hex_decode_pairs (hex_encode l) i = ROk l.
Proof.
  revert i; induction l as [|b l IH]; intros i; [reflexivity|].
  cbn [hex_encode]. now rewrite hex_decode_pairs_byte, IH.
Qed.

Lemma length_hex_encode (l : list byte) :
  String.length (hex_encode l) = (2 * length l)%nat.
Proof. induction l as [|b l IH]; cbn [hex_encode String.length length]; lia. Qed.

Lemma hex_encode_lower (l : list byte) : all_lower_hex (hex_encode l) = true.
Proof.
  induction l as [|b l IH]; [reflexivity|].
  unfold all_lower_hex in *. cbn [hex_encode list_ascii_of_string forallb].
  rewrite IH. destruct b; reflexivity.
Qed.

Lemma hex_decode_encode (l : list byte) : hex_decode (hex_encode l) = ROk l.
Proof.
  unfold hex_decode. rewrite length_hex_encode, Nat.odd_mul, Nat.odd_2.
  apply hex_decode_pairs_encode.
Qed.

Lemma hex_val_not_hex (c : ascii) (idx : nat) :
  is_hex_char c = false -> hex_val c idx = RErr (InvalidHexCharacter c idx).
Proof.
  destruct c as [[] [] [] [] [] [] [] []]; (discriminate || reflexivity).
Qed.

(** A string of even length holding a character that is not a hex digit
    makes the pair decoder fail. *)
Lemma hex_decode_pairs_bad (n : nat) (s : string) (k : nat) (j : nat) (c : ascii) :
  String.length s = (2 * n)%nat -> String.get j s = Some c -> is_hex_char c = false ->
  exists e, hex_decode_pairs s k = RErr e.
Proof.
  revert s k j. induction n as [|n IH]; intros s k j Hl Hj Hc.
  - destruct s; [discriminate|]. cbn in Hl. lia.
  - destruct s as [|c0 [|c1 s]]; cbn [String.length] in Hl; try lia.
    cbn [hex_decode_pairs].
    destruct j as [|[|j]]; cbn [String.get] in Hj.
    + injection Hj as ->. rewrite hex_val_not_hex by exact Hc. eauto.
    + injection Hj as ->. destruct (hex_val c0 (2 * k)); [|eauto].
      rewrite hex_val_not_hex by exact Hc. eauto.
    + destruct (hex_val c0 (2 * k)); [|eauto].
      destruct (hex_val c1 (2 * k + 1)); [|eauto].
      destruct (IH s (S k) j ltac:(lia) Hj Hc) as [e ->]. eauto.
Qed.

(** ** Sample values are values of their types *)

Ltac wf_tac :=
  unfold BitcoinTransaction_wf, TransactionInput_wf, OutPoint_wf, Script_wf,
    CompactSize_wf, u32_range, isize_max;
  cbv [sample_tx sample_input OutPoint_new Script_new]; cbn;
  repeat (split || apply Forall_nil || apply Forall_cons); cbn;
  try reflexivity; lia.

Lemma sample_input_wf : TransactionInput_wf sample_input.
Proof. wf_tac. Qed.

Lemma sample_tx_wf : BitcoinTransaction_wf sample_tx.
Proof. wf_tac. Qed.

(** * Claims *)

(** C1 (code_bug).  Claim: CompactSize decoding fails with
    [InsufficientBytes] on an empty buffer or when fewer width bytes follow
    the prefix than it demands; in particular every [[0xFD, x]] gives
    [Err(InsufficientBytes)].  [CompactSize::from_bytes] indexes
    [bytes[2]] without a length check and panics on every [[0xFD, x]],
    while its sibling [decode_compact_size] returns [InsufficientBytes]
    on the same buffer. *)
Theorem CompactSize_from_bytes_fd_truncated (x : byte) :
  CompactSize_from_bytes [xfd; x] = Panic
  /\ decode_compact_size [xfd; x] = Err InsufficientBytes.
Proof. split; reflexivity. Qed.

(** C2.  Every codec type round-trips: decoding the encoding of a value
    returns the value and the whole length of the encoding. *)
Theorem codec_roundtrip (c : CompactSize) (o : OutPoint) (sc : Script)
    (i : TransactionInput) (t : BitcoinTransaction) :
  CompactSize_wf c -> OutPoint_wf o -> Script_wf sc -> TransactionInput_wf i ->
  BitcoinTransaction_wf t ->
  CompactSize_from_bytes (CompactSize_to_bytes c)
    = Ok (c, length (CompactSize_to_bytes c))
  /\ OutPoint_from_bytes (OutPoint_to_bytes o) = Ok (o, length (OutPoint_to_bytes o))
  /\ Script_from_bytes (Script_to_bytes sc) = Ok (sc, length (Script_to_bytes sc))
  /\ TransactionInput_from_bytes (TransactionInput_to_bytes i)
    = Ok (i, length (TransactionInput_to_bytes i))
  /\ BitcoinTransaction_from_bytes (BitcoinTransaction_to_bytes t)
    = Ok (t, length (BitcoinTransaction_to_bytes t)).
Proof.
  intros Hc Ho Hs Hi Ht. repeat split.
  - destruct c as [v]. rewrite CompactSize_to_bytes_encode.
    exact (CompactSize_from_bytes_encode v Hc).
  - rewrite (length_OutPoint_to_bytes o Ho).
    rewrite <- (app_nil_r (OutPoint_to_bytes o)).
    exact (OutPoint_roundtrip_app o [] Ho).
  - exact (Script_roundtrip sc Hs).
  - exact (TransactionInput_roundtrip i Hi).
  - exact (BitcoinTransaction_roundtrip t Ht).
Qed.

Lemma codec_roundtrip_witness :
  (CompactSize_wf (mkCompactSize 4294967296)
   /\ OutPoint_wf (previous_output sample_input) /\ Script_wf (Script_new [])
   /\ TransactionInput_wf sample_input /\ BitcoinTransaction_wf sample_tx)
  /\ BitcoinTransaction_from_bytes (BitcoinTransaction_to_bytes sample_tx)
     = Ok (sample_tx, 50%nat).
Proof.
  assert (Hc : CompactSize_wf (mkCompactSize 4294967296)) by wf_tac.
  assert (Ho : OutPoint_wf (previous_output sample_input)) by wf_tac.
  assert (Hs : Script_wf (Script_new [])) by wf_tac.
  pose proof sample_input_wf as Hi. pose proof sample_tx_wf as Ht.
  split; [exact (conj Hc (conj Ho (conj Hs (conj Hi Ht))))|].
  destruct (codec_roundtrip _ _ _ _ _ Hc Ho Hs Hi Ht) as (_ & _ & _ & _ & E).
  exact E.
Defined.

(** C3.  CompactSize encoding picks the shortest form for the value's
    range: one byte equal to the value up to 252, [0xFD] and two
    little-endian bytes up to 65535, [0xFE] and four up to 4294967295,
    [0xFF] and eight above; [CompactSize::to_bytes] and
    [encode_compact_size] agree. *)
Theorem compact_size_encode_shortest :
  (length (CompactSize_to_bytes (CompactSize_new 252)) = 1%nat
   /\ length (CompactSize_to_bytes (CompactSize_new 253)) = 3%nat
   /\ hd_error (CompactSize_to_bytes (CompactSize_new 253)) = Some xfd
   /\ length (CompactSize_to_bytes (CompactSize_new 65536)) = 5%nat
   /\ hd_error (CompactSize_to_bytes (CompactSize_new 65536)) = Some xfe
   /\ length (CompactSize_to_bytes (CompactSize_new 4294967296)) = 9%nat
   /\ hd_error (CompactSize_to_bytes (CompactSize_new 4294967296)) = Some xff)
  /\ forall n : Z, 0 <= n < 2 ^ 64 ->
     CompactSize_to_bytes (CompactSize_new n) = encode_compact_size n
     /\ (n <= 252 -> map bv (encode_compact_size n) = [n])
     /\ (253 <= n <= 65535 -> exists rest,
           encode_compact_size n = xfd :: rest /\ length rest = 2%nat /\ from_le rest = n)
     /\ (65536 <= n <= 4294967295 -> exists rest,
           encode_compact_size n = xfe :: rest /\ length rest = 4%nat /\ from_le rest = n)
     /\ (4294967296 <= n -> exists rest,
           encode_compact_size n = xff :: rest /\ length rest = 8%nat /\ from_le rest = n).
Proof.
  split; [repeat split; reflexivity|].
  intros n Hn. split; [reflexivity|]. unfold encode_compact_size.
  repeat split; intros Hr.
  - rewrite (proj2 (Z.leb_le _ _)) by lia. cbn [map].
    rewrite bv_u8, Z.mod_small by lia. reflexivity.
  - rewrite (proj2 (Z.leb_gt n 0xFC)), (proj2 (Z.leb_le n 0xFFFF)) by lia.
    exists (to_le 2 (n mod 2 ^ 16)). rewrite length_to_le, Z.mod_small by lia.
    split; [reflexivity|]. split; [reflexivity|]. apply from_to_le. simpl. lia.
  - rewrite (proj2 (Z.leb_gt n 0xFC)), (proj2 (Z.leb_gt n 0xFFFF)),
      (proj2 (Z.leb_le n 0xFFFF_FFFF)) by lia.
    exists (to_le 4 (n mod 2 ^ 32)). rewrite length_to_le, Z.mod_small by lia.
    split; [reflexivity|]. split; [reflexivity|]. apply from_to_le. simpl. lia.
  - rewrite (proj2 (Z.leb_gt n 0xFC)), (proj2 (Z.leb_gt n 0xFFFF)),
      (proj2 (Z.leb_gt n 0xFFFF_FFFF)) by lia.
    exists (to_le 8 n). rewrite length_to_le.
    split; [reflexivity|]. split; [reflexivity|]. apply from_to_le. simpl. lia.
Qed.

Lemma compact_size_encode_shortest_witness :
  (0 <= 65536 < 2 ^ 64 /\ 65536 <= 65536 <= 4294967295)
  /\ encode_compact_size 65536 = [xfe; x00; x00; x01; x00].
Proof.
  assert (H : 0 <= 65536 < 2 ^ 64) by lia.
  assert (H' : 65536 <= 65536 <= 4294967295) by lia.
  split; [split; assumption|].
  destruct (proj2 compact_size_encode_shortest 65536 H) as (_ & _ & _ & E & _).
  destruct (E H') as (rest & Erest & _).
  rewrite Erest. f_equal.
  revert Erest. vm_compute. intros Erest. injection Erest as <-. reflexivity.
Defined.

(** C4.  Given enough bytes after its first byte, CompactSize decoding
    returns that byte and consumes 1 when it is at most [0xFC], and
    otherwise the little-endian integer in the next 2, 4 or 8 bytes,
    consuming 3, 5 or 9; every first byte is accepted, non-canonical forms
    included, and no buffer yields [InvalidFormat]. *)
Theorem compact_size_decode_spec :
  (forall (b0 : byte) (rest : list byte),
     (spec_prefix_width b0 <= length rest)%nat ->
     CompactSize_from_bytes (b0 :: rest)
       = Ok (CompactSize_new (spec_prefix_value b0 rest), S (spec_prefix_width b0))
     /\ decode_compact_size (b0 :: rest)
       = Ok (spec_prefix_value b0 rest, S (spec_prefix_width b0)))
  /\ (forall bytes : list byte,
        CompactSize_from_bytes bytes <> Err InvalidFormat
        /\ decode_compact_size bytes <> Err InvalidFormat)
  /\ CompactSize_from_bytes [xfd; x00; x01] = Ok (CompactSize_new 256, 3%nat)
  /\ decode_compact_size [xfd; x00; x01] = Ok (256, 3%nat)
  /\ CompactSize_from_bytes [xfd; x05; x00] = Ok (CompactSize_new 5, 3%nat)
  /\ decode_compact_size [xfd; x05; x00] = Ok (5, 3%nat).
Proof.
  split; [exact compact_size_prefix_decode|].
  split; [intros bytes; split;
          [apply CompactSize_from_bytes_not_invalid | apply decode_compact_size_not_invalid]|].
  repeat split; reflexivity.
Qed.

Lemma compact_size_decode_spec_witness :
  (spec_prefix_width xfe <= length [x01; x02; x03; x04])%nat
  /\ CompactSize_from_bytes [xfe; x01; x02; x03; x04]
     = Ok (CompactSize_new 67305985, 5%nat).
Proof.
  assert (H : (spec_prefix_width xfe <= length [x01; x02; x03; x04])%nat)
    by (vm_compute; lia).
  split; [exact H|].
  destruct (proj1 compact_size_decode_spec xfe [x01; x02; x03; x04] H) as [E _].
  rewrite E. reflexivity.
Defined.

(** C5.  [OutPoint::from_bytes] fails with [InsufficientBytes] exactly on
    buffers shorter than 36 bytes; on longer ones it consumes 36 bytes,
    the identifier being the first 32 and the index the little-endian
    integer in bytes 32..36, the layout [OutPoint::to_bytes] writes. *)
Theorem OutPoint_from_bytes_spec :
  (forall b : list byte,
     OutPoint_from_bytes b = Err InsufficientBytes <-> (length b < 36)%nat)
  /\ (forall b : list byte, (36 <= length b)%nat ->
       OutPoint_from_bytes b
       = Ok (OutPoint_new (firstn 32 b) (from_le (firstn 4 (skipn 32 b))), 36%nat))
  /\ (forall o : OutPoint, OutPoint_wf o ->
       length (OutPoint_to_bytes o) = 36%nat
       /\ firstn 32 (OutPoint_to_bytes o) = txid0 (txid o)
       /\ from_le (firstn 4 (skipn 32 (OutPoint_to_bytes o))) = vout o).
Proof.
  split; [|split].
  - intros b. split.
    + intros H. destruct (Nat.ltb_spec (length b) 36) as [Hl|Hl]; [exact Hl|].
      rewrite OutPoint_from_bytes_long in H by exact Hl. discriminate.
    + apply OutPoint_from_bytes_short.
  - apply OutPoint_from_bytes_long.
  - intros o Ho. split; [exact (length_OutPoint_to_bytes o Ho)|].
    pose proof (OutPoint_roundtrip_app o [] Ho) as E.
    rewrite app_nil_r in E.
    rewrite OutPoint_from_bytes_long in E by (rewrite (length_OutPoint_to_bytes o Ho); lia).
    injection E as E. destruct o as [[t] v]. unfold OutPoint_new in E.
    injection E as E1 E2. split; assumption.
Qed.

Lemma OutPoint_from_bytes_spec_witness :
  (36 <= length (repeat x07 36))%nat
  /\ OutPoint_from_bytes (repeat x07 36)
     = Ok (OutPoint_new (repeat x07 32) 117901063, 36%nat).
Proof.
  assert (H : (36 <= length (repeat x07 36))%nat) by (rewrite repeat_length; lia).
  split; [exact H|].
  rewrite (proj1 (proj2 OutPoint_from_bytes_spec) _ H). reflexivity.
Defined.

(** C6 (code_bug).  Claim: [Script::from_bytes] fails with
    [InsufficientBytes] unless the buffer holds [prefix_length +
    declared_length] bytes.  On [[0xFF; 9]], whose prefix declares
    [2^64 - 1] body bytes, the addition [prefix_len + len as usize]
    overflows and the call panics instead. *)
Theorem Script_from_bytes_length_overflow :
  decode_compact_size (repeat xff 9) = Ok (2 ^ 64 - 1, 9%nat)
  /\ Script_from_bytes (repeat xff 9) = Panic.
Proof. split; reflexivity. Qed.

(** C7.  [TransactionInput::from_bytes] decodes an OutPoint, then a
    Script right after it, then a little-endian sequence number in the
    next 4 bytes; a failure of either sub-decoder is returned unchanged,
    missing sequence bytes give [InsufficientBytes], and the bytes consumed
    are the sum of the three parts. *)
Theorem TransactionInput_from_bytes_spec (b : list byte) :
  (forall e, OutPoint_from_bytes b = Err e -> TransactionInput_from_bytes b = Err e)
  /\ (forall o n e, OutPoint_from_bytes b = Ok (o, n) ->
        Script_from_bytes (skipn n b) = Err e -> TransactionInput_from_bytes b = Err e)
  /\ (forall o n sc m, OutPoint_from_bytes b = Ok (o, n) ->
        Script_from_bytes (skipn n b) = Ok (sc, m) ->
        (length b < n + m + 4)%nat ->
        TransactionInput_from_bytes b = Err InsufficientBytes)
  /\ (forall o n sc m, OutPoint_from_bytes b = Ok (o, n) ->
        Script_from_bytes (skipn n b) = Ok (sc, m) ->
        (n + m + 4 <= length b)%nat ->
        TransactionInput_from_bytes b
        = Ok (mkTransactionInput o sc (from_le (firstn 4 (skipn (n + m) b))),
              (n + m + 4)%nat)).
Proof.
  unfold TransactionInput_from_bytes.
  repeat split.
  - intros e ->. reflexivity.
  - intros o n e Eo Es. rewrite Eo. cbn [obind].
    apply OutPoint_from_bytes_consumed in Eo as [-> Hl].
    unfold slice_from. rewrite (proj2 (Nat.leb_le _ _) Hl). cbn [obind].
    now rewrite Es.
  - intros o n sc m Eo Es Hs. rewrite Eo. cbn [obind].
    apply OutPoint_from_bytes_consumed in Eo as [-> Hl].
    unfold slice_from. rewrite (proj2 (Nat.leb_le _ _) Hl). cbn [obind].
    rewrite Es. cbn [obind]. now rewrite (proj2 (Nat.ltb_lt _ _) Hs).
  - intros o n sc m Eo Es Hs. rewrite Eo. cbn [obind].
    apply OutPoint_from_bytes_consumed in Eo as [-> Hl].
    unfold slice_from. rewrite (proj2 (Nat.leb_le _ _) Hl). cbn [obind].
    rewrite Es. cbn [obind]. rewrite (proj2 (Nat.ltb_ge _ _) Hs).
    unfold slice. rewrite (proj2 (Nat.leb_le _ _)) by lia.
    rewrite (proj2 (Nat.leb_le (36 + m + 4) _)) by lia. cbn [andb obind].
    replace (36 + m + 4 - (36 + m))%nat with 4%nat by lia.
    unfold to_array. rewrite length_firstn, length_skipn.
    replace (Nat.min 4 (length b - (36 + m))) with 4%nat by lia.
    reflexivity.
Qed.

Lemma TransactionInput_from_bytes_spec_witness :
  OutPoint_from_bytes (TransactionInput_to_bytes sample_input)
    = Ok (previous_output sample_input, 36%nat)
  /\ Script_from_bytes (skipn 36 (TransactionInput_to_bytes sample_input))
    = Ok (script_sig sample_input, 1%nat)
  /\ (36 + 1 + 4 <= length (TransactionInput_to_bytes sample_input))%nat
  /\ TransactionInput_from_bytes (TransactionInput_to_bytes sample_input)
     = Ok (sample_input, 41%nat).
Proof.
  assert (Eo : OutPoint_from_bytes (TransactionInput_to_bytes sample_input)
               = Ok (previous_output sample_input, 36%nat)) by reflexivity.
  assert (Es : Script_from_bytes (skipn 36 (TransactionInput_to_bytes sample_input))
               = Ok (script_sig sample_input, 1%nat)) by reflexivity.
  assert (Hl : (36 + 1 + 4 <= length (TransactionInput_to_bytes sample_input))%nat)
    by (vm_compute; lia).
  split; [exact Eo|]. split; [exact Es|]. split; [exact Hl|].
  destruct (TransactionInput_from_bytes_spec (TransactionInput_to_bytes sample_input))
    as (_ & _ & _ & H).
  rewrite (H _ _ _ _ Eo Es Hl). reflexivity.
Defined.

(** C8.  [BitcoinTransaction::from_bytes] fails with [InsufficientBytes]
    below 4 bytes; otherwise it reads the version from the first 4 bytes,
    the input count at offset 4, then exactly that many inputs one after
    another, returning the first failure among them, and a lock time in 4
    more bytes (else [InsufficientBytes]); it consumes 4 + the count's
    width + the inputs' widths + 4 bytes.  A buffer announcing 2 inputs
    but holding one fails with [InsufficientBytes]. *)
Theorem BitcoinTransaction_from_bytes_spec :
  (forall b, (length b < 4)%nat -> BitcoinTransaction_from_bytes b = Err InsufficientBytes)
  /\ (forall b e, (4 <= length b)%nat -> decode_compact_size (skipn 4 b) = Err e ->
        BitcoinTransaction_from_bytes b = Err e)
  /\ (forall b cnt w is cs, (4 <= length b)%nat ->
        decode_compact_size (skipn 4 b) = Ok (cnt, w) ->
        inputs_decoded b (4 + w) is cs -> length is = Z.to_nat cnt ->
        ((length b < 4 + w + list_sum cs + 4)%nat ->
           BitcoinTransaction_from_bytes b = Err InsufficientBytes)
        /\ ((4 + w + list_sum cs + 4 <= length b)%nat ->
           BitcoinTransaction_from_bytes b
           = Ok (mkBitcoinTransaction (from_le (firstn 4 b)) is
                   (from_le (firstn 4 (skipn (4 + w + list_sum cs) b))),
                 (4 + w + list_sum cs + 4)%nat)))
  /\ (forall b cnt w is cs e, (4 <= length b)%nat ->
        decode_compact_size (skipn 4 b) = Ok (cnt, w) ->
        inputs_decoded b (4 + w) is cs -> (length is < Z.to_nat cnt)%nat ->
        TransactionInput_from_bytes (skipn (4 + w + list_sum cs) b) = Err e ->
        BitcoinTransaction_from_bytes b = Err e)
  /\ BitcoinTransaction_from_bytes two_inputs_one_present = Err InsufficientBytes.
Proof.
  split; [|split; [|split; [|split]]].
  - intros b Hl. unfold BitcoinTransaction_from_bytes.
    now rewrite (proj2 (Nat.ltb_lt _ _) Hl).
  - intros b e Hl Ed. unfold BitcoinTransaction_from_bytes.
    rewrite (proj2 (Nat.ltb_ge _ _) Hl), slice_ok by lia. cbn [obind].
    rewrite to_array_ok by (rewrite length_firstn, length_skipn; lia). cbn [obind].
    rewrite slice_from_ok by lia. cbn [obind]. now rewrite Ed.
  - intros b cnt w is cs Hl Ed Hin Hn.
    pose proof (decode_compact_size_consumed _ _ _ Ed) as [_ Hw].
    rewrite length_skipn in Hw.
    assert (Hdec : decode_inputs (Z.to_nat cnt) b (w + 4) []
                   = Ok (is, (4 + w + list_sum cs)%nat)).
    { rewrite <- Hn, <- (Nat.add_0_r (length is)), (Nat.add_comm w 4).
      rewrite (decode_inputs_decoded b (4 + w) is cs 0 [] Hin) by lia. reflexivity. }
    unfold BitcoinTransaction_from_bytes.
    rewrite (proj2 (Nat.ltb_ge _ _) Hl), slice_ok by lia. cbn [obind].
    rewrite to_array_ok by (rewrite length_firstn, length_skipn; lia). cbn [obind].
    rewrite slice_from_ok by lia. cbn [obind]. rewrite Ed. cbn [obind].
    rewrite Hdec. cbn [obind]. split; intros Hs.
    + now rewrite (proj2 (Nat.ltb_lt _ _) Hs).
    + rewrite (proj2 (Nat.ltb_ge _ _) Hs), slice_ok by lia. cbn [obind].
      rewrite to_array_ok by (rewrite length_firstn, length_skipn; lia). cbn [obind].
      rewrite skipn_0.
      now replace (4 + w + list_sum cs + 4 - (4 + w + list_sum cs))%nat with 4%nat by lia.
  - intros b cnt w is cs e Hl Ed Hin Hn Hi.
    pose proof (decode_compact_size_consumed _ _ _ Ed) as [_ Hw].
    rewrite length_skipn in Hw.
    pose proof (inputs_decoded_bound _ _ _ _ Hin ltac:(lia)) as Hb.
    assert (Hdec : decode_inputs (Z.to_nat cnt) b (w + 4) [] = Err e).
    { replace (Z.to_nat cnt) with (length is + S (Z.to_nat cnt - length is - 1))%nat
        by lia.
      rewrite (Nat.add_comm w 4).
      rewrite (decode_inputs_decoded b (4 + w) is cs _ [] Hin) by lia.
      cbn [decode_inputs]. rewrite slice_from_ok by lia. cbn [obind].
      now rewrite Hi. }
    unfold BitcoinTransaction_from_bytes.
    rewrite (proj2 (Nat.ltb_ge _ _) Hl), slice_ok by lia. cbn [obind].
    rewrite to_array_ok by (rewrite length_firstn, length_skipn; lia). cbn [obind].
    rewrite slice_from_ok by lia. cbn [obind]. rewrite Ed. cbn [obind].
    now rewrite Hdec.
  - vm_compute. reflexivity.
Qed.

Lemma BitcoinTransaction_from_bytes_spec_witness :
  (4 <= length (BitcoinTransaction_to_bytes sample_tx))%nat
  /\ decode_compact_size (skipn 4 (BitcoinTransaction_to_bytes sample_tx)) = Ok (1, 1%nat)
  /\ inputs_decoded (BitcoinTransaction_to_bytes sample_tx) (4 + 1) [sample_input] [41%nat]
  /\ BitcoinTransaction_from_bytes (BitcoinTransaction_to_bytes sample_tx)
     = Ok (sample_tx, 50%nat).
Proof.
  assert (Hl : (4 <= length (BitcoinTransaction_to_bytes sample_tx))%nat)
    by (vm_compute; lia).
  assert (Ed : decode_compact_size (skipn 4 (BitcoinTransaction_to_bytes sample_tx))
               = Ok (1, 1%nat)) by reflexivity.
  assert (Hin : inputs_decoded (BitcoinTransaction_to_bytes sample_tx) (4 + 1)
                  [sample_input] [41%nat]).
  { apply inputs_decoded_cons; [reflexivity|]. apply inputs_decoded_nil. }
  split; [exact Hl|]. split; [exact Ed|]. split; [exact Hin|].
  destruct (proj1 (proj2 (proj2 BitcoinTransaction_from_bytes_spec))
              _ _ _ _ _ Hl Ed Hin eq_refl) as [_ H].
  rewrite H by (vm_compute; lia). reflexivity.
Defined.

(** C9 (corrected).  Amended claim: serializing a [Txid] gives 64
    lowercase hexadecimal characters (64 ['0'] for the all-zero one) and
    deserializing that text gives the [Txid] back; deserializing text that
    has an odd length, holds a non-hexadecimal character, or decodes to
    other than 32 bytes fails with a serde custom error (the [hex] crate's
    error, or the message "txid must be 32 bytes"), not with
    [BitcoinError::InvalidFormat], which the code never constructs. *)
Theorem Txid_text_spec :
  (forall t : Txid, length (txid0 t) = 32%nat ->
     String.length (Txid_serialize t) = 64%nat
     /\ all_lower_hex (Txid_serialize t) = true
     /\ Txid_deserialize (Txid_serialize t) = ROk t)
  /\ Txid_serialize (mkTxid (repeat x00 32)) = string_repeat 64 "0"
  /\ (forall s, Nat.odd (String.length s) = true ->
        Txid_deserialize s = RErr (Custom_from OddLength))
  /\ (forall s j c, String.get j s = Some c -> is_hex_char c = false ->
        exists e, Txid_deserialize s = RErr (Custom_from e))
  /\ (forall s v, hex_decode s = ROk v -> length v <> 32%nat ->
        Txid_deserialize s = RErr (Custom "txid must be 32 bytes")).
Proof.
  split; [|split; [reflexivity|split; [|split]]].
  - intros [l] Hl. cbn [txid0] in Hl. unfold Txid_serialize. cbn [txid0].
    split; [rewrite length_hex_encode; lia|].
    split; [apply hex_encode_lower|].
    unfold Txid_deserialize. rewrite hex_decode_encode, Hl. reflexivity.
  - intros s Hs. unfold Txid_deserialize, hex_decode. now rewrite Hs.
  - intros s j c Hj Hc. unfold Txid_deserialize, hex_decode.
    destruct (Nat.odd (String.length s)) eqn:Ho; [eauto|].
    assert (He : Nat.even (String.length s) = true)
      by (rewrite <- Nat.negb_odd, Ho; reflexivity).
    apply Nat.even_spec in He as [n Hn].
    destruct (hex_decode_pairs_bad n s 0 j c Hn Hj Hc) as [e ->]. eauto.
  - intros s v Hs Hv. unfold Txid_deserialize. rewrite Hs.
    now rewrite (proj2 (Nat.eqb_neq _ _) Hv).
Qed.

Lemma Txid_text_spec_witness :
  Nat.odd (String.length (string_repeat 63 "0")) = true
  /\ Txid_deserialize (string_repeat 63 "0") = RErr (Custom_from OddLength).
Proof.
  assert (H : Nat.odd (String.length (string_repeat 63 "0")) = true) by reflexivity.
  split; [exact H|].
  exact (proj1 (proj2 (proj2 Txid_text_spec)) _ H).
Defined.

(** C9, counterexample: a 63-character text and a text with a
    non-hexadecimal character are refused with serde custom errors built
    from the [hex] crate's [OddLength] and [InvalidHexCharacter], not with
    [InvalidFormat]. *)
Lemma Txid_deserialize_error_kind :
  Txid_deserialize (string_repeat 63 "0") = RErr (Custom_from OddLength)
  /\ Txid_deserialize (String "z" (string_repeat 63 "0"))
     = RErr (Custom_from (InvalidHexCharacter "z" 0)).
Proof. split; reflexivity. Qed.

(** C10.  Every binary decoder reads a prefix of its buffer: appending
    bytes to a buffer it decodes leaves its result and consumed count
    unchanged, so a transaction followed by extra bytes decodes with a
    consumed count below the buffer's length. *)
Theorem decoders_ignore_trailing_bytes (b s : list byte) :
  (forall r, OutPoint_from_bytes b = Ok r -> OutPoint_from_bytes (b ++ s) = Ok r)
  /\ (forall r, Script_from_bytes b = Ok r -> Script_from_bytes (b ++ s) = Ok r)
  /\ (forall r, TransactionInput_from_bytes b = Ok r ->
        TransactionInput_from_bytes (b ++ s) = Ok r)
  /\ (forall r, BitcoinTransaction_from_bytes b = Ok r ->
        BitcoinTransaction_from_bytes (b ++ s) = Ok r)
  /\ (forall t n, BitcoinTransaction_from_bytes b = Ok (t, n) -> s <> [] ->
        BitcoinTransaction_from_bytes (b ++ s) = Ok (t, n)
        /\ (n < length (b ++ s))%nat).
Proof.
  split; [apply OutPoint_from_bytes_app|].
  split; [apply Script_from_bytes_app|].
  split; [apply TransactionInput_from_bytes_app|].
  split; [apply BitcoinTransaction_from_bytes_app|].
  intros t n H Hs. split; [exact (BitcoinTransaction_from_bytes_app b s _ H)|].
  pose proof (BitcoinTransaction_from_bytes_consumed _ _ _ H).
  destruct s; [contradiction|]. rewrite length_app. cbn [length]. lia.
Qed.

Lemma decoders_ignore_trailing_bytes_witness :
  BitcoinTransaction_from_bytes (BitcoinTransaction_to_bytes sample_tx) = Ok (sample_tx, 50%nat)
  /\ [xde; xad] <> []
  /\ BitcoinTransaction_from_bytes (BitcoinTransaction_to_bytes sample_tx ++ [xde; xad])
     = Ok (sample_tx, 50%nat)
  /\ (50 < length (BitcoinTransaction_to_bytes sample_tx ++ [xde; xad]))%nat.
Proof.
  assert (H : BitcoinTransaction_from_bytes (BitcoinTransaction_to_bytes sample_tx)
              = Ok (sample_tx, 50%nat)) by (vm_compute; reflexivity).
  assert (Hs : [xde; xad] <> []) by discriminate.
  split; [exact H|]. split; [exact Hs|].
  destruct (decoders_ignore_trailing_bytes (BitcoinTransaction_to_bytes sample_tx) [xde; xad])
    as (_ & _ & _ & _ & E).
  exact (E _ _ H Hs).
Defined.

(** * Further properties of the code *)

(** ** CompactSize decoding: errors, and the two decoders compared *)

Lemma decode_compact_size_truncated (b : list byte) :
  compact_truncated b -> decode_compact_size b = Err InsufficientBytes.
Proof.
  destruct b as [|b0 rest]; [reflexivity|].
  unfold compact_truncated, spec_prefix_width, decode_compact_size.
  cbn [idx nth_error obind].
  destruct (bv b0 <=? 0xFC); [intros H; lia|].
  destruct (bv b0 =? 0xFD); [|destruct (bv b0 =? 0xFE)]; intros H;
    rewrite (proj2 (Nat.ltb_lt _ _)) by (cbn [length]; lia); reflexivity.
Qed.

Lemma CompactSize_from_bytes_truncated (b0 : byte) (rest : list byte) :
  compact_truncated (b0 :: rest) -> CompactSize_from_bytes (b0 :: rest) = Panic.
Proof.
  unfold compact_truncated, spec_prefix_width, CompactSize_from_bytes.
  cbn [idx nth_error obind].
  destruct (bv b0 <=? 0xFC); [intros H; lia|].
  destruct (bv b0 =? 0xFD); [|destruct (bv b0 =? 0xFE)]; intros H.
  - destruct rest as [|r1 [|r2 rest]]; cbn [length] in H; try lia; reflexivity.
  - destruct rest as [|r1 [|r2 [|r3 [|r4 rest]]]]; cbn [length] in H; try lia;
      reflexivity.
  - destruct rest as [|r1 [|r2 [|r3 [|r4 [|r5 [|r6 [|r7 [|r8 rest]]]]]]]];
      cbn [length] in H; try lia; reflexivity.
Qed.

Lemma decode_compact_size_cases (b : list byte) :
  (compact_truncated b /\ decode_compact_size b = Err InsufficientBytes)
  \/ exists b0 rest, b = b0 :: rest /\ ~ compact_truncated b
     /\ CompactSize_from_bytes b
        = Ok (CompactSize_new (spec_prefix_value b0 rest), S (spec_prefix_width b0))
     /\ decode_compact_size b = Ok (spec_prefix_value b0 rest, S (spec_prefix_width b0)).
Proof.
  destruct b as [|b0 rest]; [left; split; [exact I | reflexivity]|].
  destruct (Nat.lt_ge_cases (length rest) (spec_prefix_width b0)) as [H|H].
  - left. split; [exact H|]. now apply decode_compact_size_truncated.
  - right. exists b0, rest. split; [reflexivity|]. split; [cbn; lia|].
    exact (compact_size_prefix_decode b0 rest H).
Qed.

Lemma decode_compact_size_not_panic (b : list byte) : decode_compact_size b <> Panic.
Proof.
  destruct (decode_compact_size_cases b) as [[_ E]|(b0 & rest & _ & _ & _ & E)];
    rewrite E; discriminate.
Qed.

Lemma decode_compact_size_err (b : list byte) (e : BitcoinError) :
  decode_compact_size b = Err e -> e = InsufficientBytes /\ compact_truncated b.
Proof.
  destruct (decode_compact_size_cases b) as [[Ht E]|(b0 & rest & _ & _ & _ & E)];
    rewrite E; intros H; [injection H as <-; auto | discriminate].
Qed.

Lemma length_encode_compact_size_range (n : Z) :
  (n <= 0xFC -> length (encode_compact_size n) = 1%nat)
  /\ (n <= 0xFFFF -> (length (encode_compact_size n) <= 3)%nat)
  /\ (n <= 0xFFFF_FFFF -> (length (encode_compact_size n) <= 5)%nat).
Proof.
  unfold encode_compact_size.
  destruct (Z.leb_spec n 0xFC); [cbn [length]; lia|].
  destruct (Z.leb_spec n 0xFFFF); [|destruct (Z.leb_spec n 0xFFFF_FFFF)];
    cbn [length]; rewrite length_to_le; lia.
Qed.

Lemma decode_compact_size_value (b : list byte) (v : Z) (w : nat) :
  decode_compact_size b = Ok (v, w) ->
  0 <= v < 2 ^ 64 /\ (length (encode_compact_size v) <= w)%nat.
Proof.
  intros E.
  destruct (decode_compact_size_cases b) as [[_ E']|(b0 & rest & -> & Hn & _ & E')];
    rewrite E' in E; [discriminate|]. injection E as <- <-.
  cbn [compact_truncated] in Hn.
  pose proof (bv_range b0) as Hb.
  pose proof (from_le_range (firstn (spec_prefix_width b0) rest)) as Hr.
  rewrite length_firstn, Nat.min_l in Hr by lia.
  pose proof (length_encode_compact_size_range (spec_prefix_value b0 rest)) as (R1 & R2 & R3).
  pose proof (length_encode_compact_size (spec_prefix_value b0 rest)) as R4.
  revert Hn Hr R1 R2 R3 R4. unfold spec_prefix_value, spec_prefix_width.
  destruct (Z.leb_spec (bv b0) 0xFC); [lia|].
  destruct (bv b0 =? 0xFD); [|destruct (bv b0 =? 0xFE)]; cbn; lia.
Qed.

Lemma CompactSize_from_bytes_of_decode (b : list byte) (v : Z) (w : nat) :
  decode_compact_size b = Ok (v, w) -> CompactSize_from_bytes b = Ok (CompactSize_new v, w).
Proof.
  intros E.
  destruct (decode_compact_size_cases b) as [[_ E']|(b0 & rest & _ & _ & E1 & E')];
    rewrite E' in E; [discriminate|]. injection E as <- <-. exact E1.
Qed.

(** X1.  [decode_compact_size] never panics, and it fails, always with
    [InsufficientBytes], exactly on a buffer that is empty or shorter than
    its prefix byte announces; on every other buffer it succeeds. *)
Theorem decode_compact_size_failure (b : list byte) :
  decode_compact_size b <> Panic
  /\ (forall e, decode_compact_size b = Err e -> e = InsufficientBytes)
  /\ (decode_compact_size b = Err InsufficientBytes <-> compact_truncated b)
  /\ (~ compact_truncated b -> exists v w, decode_compact_size b = Ok (v, w)).
Proof.
  split; [apply decode_compact_size_not_panic|].
  split; [intros e H; exact (proj1 (decode_compact_size_err b e H))|].
  split; [split; [intros H; exact (proj2 (decode_compact_size_err b _ H))
                 | apply decode_compact_size_truncated]|].
  intros Hn.
  destruct (decode_compact_size_cases b) as [[Ht _]|(b0 & rest & _ & _ & _ & E)];
    [contradiction | eauto].
Qed.

Lemma decode_compact_size_failure_witness :
  decode_compact_size [xfe; x01; x02] = Err InsufficientBytes
  /\ compact_truncated [xfe; x01; x02]
  /\ ~ compact_truncated [xfe; x01; x02; x03; x04]
  /\ exists v w, decode_compact_size [xfe; x01; x02; x03; x04] = Ok (v, w).
Proof.
  assert (E : decode_compact_size [xfe; x01; x02] = Err InsufficientBytes)
    by reflexivity.
  assert (Hn : ~ compact_truncated [xfe; x01; x02; x03; x04])
    by (cbn; unfold spec_prefix_width; cbn; lia).
  destruct (decode_compact_size_failure [xfe; x01; x02]) as (_ & _ & [H _] & _).
  destruct (decode_compact_size_failure [xfe; x01; x02; x03; x04]) as (_ & _ & _ & H').
  split; [exact E|]. split; [exact (H E)|]. split; [exact Hn|]. exact (H' Hn).
Defined.

(** X2.  The two CompactSize decoders agree wherever
    [decode_compact_size] succeeds; on every nonempty buffer where it
    reports [InsufficientBytes], [CompactSize::from_bytes] panics
    instead. *)
Theorem CompactSize_decoders_compared (b : list byte) :
  (forall v w, decode_compact_size b = Ok (v, w) ->
     CompactSize_from_bytes b = Ok (CompactSize_new v, w))
  /\ (b <> [] -> decode_compact_size b = Err InsufficientBytes ->
        CompactSize_from_bytes b = Panic).
Proof.
  split; [apply CompactSize_from_bytes_of_decode|].
  intros Hb E. destruct b as [|b0 rest]; [contradiction|].
  apply CompactSize_from_bytes_truncated.
  exact (proj2 (decode_compact_size_err _ _ E)).
Qed.

Lemma CompactSize_decoders_compared_witness :
  [xff; x00] <> [] /\ decode_compact_size [xff; x00] = Err InsufficientBytes
  /\ CompactSize_from_bytes [xff; x00] = Panic.
Proof.
  assert (Hb : [xff; x00] <> []) by discriminate.
  assert (E : decode_compact_size [xff; x00] = Err InsufficientBytes) by reflexivity.
  split; [exact Hb|]. split; [exact E|].
  exact (proj2 (CompactSize_decoders_compared [xff; x00]) Hb E).
Defined.

(** X3.  A value read by [decode_compact_size] is a [u64], and
    re-encoding it with [encode_compact_size] never takes more bytes than
    were read: the decoder accepts longer, non-canonical forms, the
    encoder always writes the shortest one, which decodes back to the
    same value. *)
Theorem decode_compact_size_reencode (b : list byte) (v : Z) (w : nat) :
  decode_compact_size b = Ok (v, w) ->
  0 <= v < 2 ^ 64
  /\ (length (encode_compact_size v) <= w)%nat
  /\ decode_compact_size (encode_compact_size v) = Ok (v, length (encode_compact_size v)).
Proof.
  intros E. destruct (decode_compact_size_value b v w E) as [Hv Hl].
  split; [exact Hv|]. split; [exact Hl|].
  exact (decode_compact_size_encode v Hv).
Qed.

Lemma decode_compact_size_reencode_witness :
  decode_compact_size [xfe; x05; x00; x00; x00] = Ok (5, 5%nat)
  /\ encode_compact_size 5 = [x05].
Proof.
  assert (E : decode_compact_size [xfe; x05; x00; x00; x00] = Ok (5, 5%nat))
    by reflexivity.
  split; [exact E|].
  destruct (decode_compact_size_reencode _ _ _ E) as (_ & Hl & _).
  revert Hl. vm_compute. intros _. reflexivity.
Defined.

(** X4.  Both CompactSize decoders read back what [encode_compact_size]
    (and [CompactSize::to_bytes]) writes for any [u64], whatever bytes
    follow it. *)
Theorem compact_size_roundtrip_app (n : Z) (rest : list byte) :
  0 <= n < 2 ^ 64 ->
  decode_compact_size (encode_compact_size n ++ rest)
    = Ok (n, length (encode_compact_size n))
  /\ CompactSize_from_bytes (CompactSize_to_bytes (CompactSize_new n) ++ rest)
    = Ok (CompactSize_new n, length (CompactSize_to_bytes (CompactSize_new n))).
Proof.
  intros Hn.
  pose proof (decode_compact_size_app _ rest _ (decode_compact_size_encode n Hn)) as E.
  split; [exact E|].
  rewrite CompactSize_to_bytes_encode. cbn [value].
  exact (CompactSize_from_bytes_of_decode _ _ _ E).
Qed.

Lemma compact_size_roundtrip_app_witness :
  0 <= 70000 < 2 ^ 64
  /\ CompactSize_from_bytes (CompactSize_to_bytes (CompactSize_new 70000) ++ [xab])
     = Ok (CompactSize_new 70000, 5%nat).
Proof.
  assert (H : 0 <= 70000 < 2 ^ 64) by lia.
  split; [exact H|].
  rewrite (proj2 (compact_size_roundtrip_app 70000 [xab] H)). reflexivity.
Defined.

(** ** Script decoding: its three outcomes *)

Lemma Script_from_bytes_cases (b : list byte) :
  (forall sc n, Script_from_bytes b = Ok (sc, n) ->
     exists len p, decode_compact_size b = Ok (len, p)
       /\ n = (p + Z.to_nat len)%nat /\ Z.of_nat (length (script_bytes sc)) = len
       /\ script_bytes sc = firstn (Z.to_nat len) (skipn p b))
  /\ (Script_from_bytes b = Panic <->
      exists len p, decode_compact_size b = Ok (len, p) /\ usize_max < Z.of_nat p + len)
  /\ (forall e, Script_from_bytes b = Err e <->
      e = InsufficientBytes
      /\ (decode_compact_size b = Err InsufficientBytes
          \/ exists len p, decode_compact_size b = Ok (len, p)
             /\ Z.of_nat p + len <= usize_max /\ Z.of_nat (length b) < Z.of_nat p + len)).
Proof.
  unfold Script_from_bytes.
  destruct (decode_compact_size b) as [[len p]|e|] eqn:E.
  - destruct (decode_compact_size_value _ _ _ E) as [Hv _].
    cbn [obind].
    destruct (Z.ltb_spec usize_max (Z.of_nat p + len)) as [Ho|Ho];
      [|destruct (Z.ltb_spec (Z.of_nat (length b)) (Z.of_nat p + len)) as [Hs|Hs]].
    + split; [discriminate|]. split; [split; [eauto|reflexivity]|].
      intros e. split; [discriminate|].
      intros [_ [H|(len' & p' & H & H1 & _)]]; [discriminate|].
      injection H as <- <-. lia.
    + split; [discriminate|].
      split; [split; [discriminate|intros (len' & p' & H & H1); injection H as <- <-; lia]|].
      intros e. split.
      * intros H. injection H as <-. split; [reflexivity|]. right. eauto.
      * intros [-> _]. reflexivity.
    + rewrite slice_ok by lia. cbn [obind].
      split; [|split].
      * intros sc n H. injection H as <- <-. exists len, p.
        split; [reflexivity|]. split; [lia|].
        unfold Script_new; cbn [script_bytes]. rewrite length_firstn, length_skipn.
        split; [lia|]. f_equal. lia.
      * split; [discriminate|]. intros (len' & p' & H & H1). injection H as <- <-. lia.
      * intros e. split; [discriminate|].
        intros [_ [H|(len' & p' & H & _ & H2)]]; [discriminate|].
        injection H as <- <-. lia.
  - destruct (decode_compact_size_err _ _ E) as [-> _]. cbn [obind].
    split; [discriminate|]. split; [split; [discriminate|]|].
    + intros (len & p & H & _). discriminate.
    + intros e. split.
      * intros H. injection H as <-. auto.
      * intros [-> _]. reflexivity.
  - exfalso. exact (decode_compact_size_not_panic b E).
Qed.

(** X5.  [Script::from_bytes] has three outcomes.  On success the script
    is the [len] bytes right after the prefix, [len] being the declared
    length, and it consumes prefix and script; it panics exactly when
    [prefix_len + len] overflows [usize]; every other failure is
    [InsufficientBytes], from a truncated prefix or a buffer shorter than
    [prefix_len + len]. *)
Theorem Script_from_bytes_outcomes (b : list byte) :
  (forall sc n, Script_from_bytes b = Ok (sc, n) ->
     exists len p, decode_compact_size b = Ok (len, p)
       /\ n = (p + Z.to_nat len)%nat /\ Z.of_nat (length (script_bytes sc)) = len
       /\ script_bytes sc = firstn (Z.to_nat len) (skipn p b))
  /\ (Script_from_bytes b = Panic <->
      exists len p, decode_compact_size b = Ok (len, p) /\ usize_max < Z.of_nat p + len)
  /\ (forall e, Script_from_bytes b = Err e <->
      e = InsufficientBytes
      /\ (decode_compact_size b = Err InsufficientBytes
          \/ exists len p, decode_compact_size b = Ok (len, p)
             /\ Z.of_nat p + len <= usize_max /\ Z.of_nat (length b) < Z.of_nat p + len)).
Proof. exact (Script_from_bytes_cases b). Qed.

Lemma Script_from_bytes_outcomes_witness :
  Script_from_bytes [x02; xaa; xbb; xcc] = Ok (Script_new [xaa; xbb], 3%nat)
  /\ exists len p, decode_compact_size [x02; xaa; xbb; xcc] = Ok (len, p)
       /\ (3 = p + Z.to_nat len)%nat.
Proof.
  assert (E : Script_from_bytes [x02; xaa; xbb; xcc] = Ok (Script_new [xaa; xbb], 3%nat))
    by reflexivity.
  split; [exact E|].
  destruct (proj1 (Script_from_bytes_outcomes _) _ _ E) as (len & p & H1 & H2 & _).
  exists len, p. split; assumption.
Defined.

(** ** Where the decoders panic *)

Lemma OutPoint_from_bytes_not_panic (b : list byte) : OutPoint_from_bytes b <> Panic.
Proof.
  destruct (Nat.ltb_spec (length b) 36) as [H|H].
  - rewrite OutPoint_from_bytes_short by exact H. discriminate.
  - rewrite OutPoint_from_bytes_long by exact H. discriminate.
Qed.

Lemma TransactionInput_from_bytes_panic (b : list byte) :
  TransactionInput_from_bytes b = Panic <->
  (36 <= length b)%nat /\ Script_from_bytes (skipn 36 b) = Panic.
Proof.
  unfold TransactionInput_from_bytes.
  destruct (Nat.ltb_spec (length b) 36) as [H|H].
  - rewrite OutPoint_from_bytes_short by exact H. cbn [obind].
    split; [discriminate|]. intros [H' _]. lia.
  - rewrite OutPoint_from_bytes_long by exact H. cbn [obind].
    rewrite slice_from_ok by exact H. cbn [obind].
    destruct (Script_from_bytes (skipn 36 b)) as [[sc m]|e|] eqn:Es; cbn [obind].
    + apply Script_from_bytes_consumed in Es. rewrite length_skipn in Es.
      destruct (Nat.ltb_spec (length b) (36 + m + 4)).
      * split; [discriminate|]. intros [_ H']. discriminate.
      * rewrite slice_ok by lia. cbn [obind].
        rewrite to_array_ok by (rewrite length_firstn, length_skipn; lia).
        split; [discriminate|]. intros [_ H']. discriminate.
    + split; [discriminate|]. intros [_ H']. discriminate.
    + split; auto.
Qed.

Lemma decode_inputs_panic (k : nat) (b : list byte) (off : nat) (acc : list TransactionInput) :
  (off <= length b)%nat -> decode_inputs k b off acc = Panic ->
  exists off', (off' <= length b)%nat /\ Script_from_bytes (skipn off' b) = Panic.
Proof.
  revert off acc; induction k as [|k IH]; intros off acc Hoff; cbn [decode_inputs];
    [discriminate|].
  rewrite slice_from_ok by exact Hoff. cbn [obind].
  destruct (TransactionInput_from_bytes (skipn off b)) as [[i c]|e|] eqn:Ei; cbn [obind].
  - apply TransactionInput_from_bytes_consumed in Ei. rewrite length_skipn in Ei.
    apply IH. lia.
  - discriminate.
  - intros _. apply TransactionInput_from_bytes_panic in Ei as [Hl Hs].
    rewrite skipn_skipn in Hs. rewrite length_skipn in Hl.
    exists (36 + off)%nat. split; [lia|exact Hs].
Qed.

Lemma BitcoinTransaction_from_bytes_panic (b : list byte) :
  BitcoinTransaction_from_bytes b = Panic ->
  exists off, (off <= length b)%nat /\ Script_from_bytes (skipn off b) = Panic.
Proof.
  unfold BitcoinTransaction_from_bytes.
  destruct (Nat.ltb_spec (length b) 4) as [H|H]; [discriminate|].
  rewrite slice_ok by lia. cbn [obind].
  rewrite to_array_ok by (rewrite length_firstn, length_skipn; lia). cbn [obind].
  rewrite slice_from_ok by lia. cbn [obind].
  destruct (decode_compact_size (skipn 4 b)) as [[cnt w]|e|] eqn:Ed; cbn [obind];
    [|discriminate|exfalso; exact (decode_compact_size_not_panic _ Ed)].
  apply decode_compact_size_consumed in Ed as [_ Hw]. rewrite length_skipn in Hw.
  destruct (decode_inputs _ b (w + 4) []) as [[ins off]|e|] eqn:Ei; cbn [obind].
  - destruct (Nat.ltb_spec (length b) (off + 4)); [discriminate|].
    rewrite slice_ok by lia. cbn [obind].
    rewrite to_array_ok by (rewrite length_firstn, length_skipn; lia).
    discriminate.
  - discriminate.
  - intros _. exact (decode_inputs_panic _ b (w + 4) [] ltac:(lia) Ei).
Qed.

(** X6.  The only panic left in the binary decoders is the [usize]
    overflow of [Script::from_bytes]: [OutPoint::from_bytes] and
    [decode_compact_size] never panic, [TransactionInput::from_bytes]
    panics exactly when the script after its 36-byte outpoint does, and a
    panicking [BitcoinTransaction::from_bytes] has a script inside its
    buffer that panics. *)
Theorem decoders_panic_origin (b : list byte) :
  OutPoint_from_bytes b <> Panic
  /\ decode_compact_size b <> Panic
  /\ (TransactionInput_from_bytes b = Panic <->
      (36 <= length b)%nat /\ Script_from_bytes (skipn 36 b) = Panic)
  /\ (BitcoinTransaction_from_bytes b = Panic ->
      exists off, (off <= length b)%nat /\ Script_from_bytes (skipn off b) = Panic).
Proof.
  split; [apply OutPoint_from_bytes_not_panic|].
  split; [apply decode_compact_size_not_panic|].
  split; [apply TransactionInput_from_bytes_panic|].
  apply BitcoinTransaction_from_bytes_panic.
Qed.

Lemma decoders_panic_origin_witness :
  TransactionInput_from_bytes (repeat x00 36 ++ repeat xff 9) = Panic
  /\ (36 <= length (repeat x00 36 ++ repeat xff 9))%nat
  /\ Script_from_bytes (skipn 36 (repeat x00 36 ++ repeat xff 9)) = Panic.
Proof.
  assert (E : TransactionInput_from_bytes (repeat x00 36 ++ repeat xff 9) = Panic)
    by reflexivity.
  split; [exact E|].
  exact (proj1 (proj1 (proj2 (proj2 (decoders_panic_origin _)))) E).
Defined.

(** ** The error every binary decoder reports *)

Lemma slice_not_err (b : list byte) (i j : nat) (e : BitcoinError) : slice b i j <> Err e.
Proof. unfold slice. destruct (_ && _); discriminate. Qed.

Lemma slice_from_not_err (b : list byte) (i : nat) (e : BitcoinError) :
  slice_from b i <> Err e.
Proof. unfold slice_from. destruct (Nat.leb _ _); discriminate. Qed.

Lemma to_array_not_err (n : nat) (xs : list byte) (e : BitcoinError) :
  to_array n xs <> Err e.
Proof. unfold to_array. destruct (Nat.eqb _ _); discriminate. Qed.

Lemma OutPoint_from_bytes_err (b : list byte) (e : BitcoinError) :
  OutPoint_from_bytes b = Err e -> e = InsufficientBytes.
Proof.
  destruct (Nat.ltb_spec (length b) 36) as [H|H].
  - rewrite OutPoint_from_bytes_short by exact H. now intros [= <-].
  - rewrite OutPoint_from_bytes_long by exact H. discriminate.
Qed.

Lemma Script_from_bytes_err (b : list byte) (e : BitcoinError) :
  Script_from_bytes b = Err e -> e = InsufficientBytes.
Proof.
  intros H. exact (proj1 (proj1 (proj2 (proj2 (Script_from_bytes_cases b)) e) H)).
Qed.

Lemma TransactionInput_from_bytes_err (b : list byte) (e : BitcoinError) :
  TransactionInput_from_bytes b = Err e -> e = InsufficientBytes.
Proof.
  unfold TransactionInput_from_bytes.
  destruct (OutPoint_from_bytes b) as [[o k]|e'|] eqn:Eo; cbn [obind];
    [|now intros [= <-]; apply (OutPoint_from_bytes_err b)|discriminate].
  apply OutPoint_from_bytes_consumed in Eo as [-> Hl].
  rewrite slice_from_ok by exact Hl. cbn [obind].
  destruct (Script_from_bytes (skipn 36 b)) as [[sc m]|e'|] eqn:Es; cbn [obind];
    [|now intros [= <-]; apply (Script_from_bytes_err _ _ Es)|discriminate].
  destruct (Nat.ltb_spec (length b) (36 + m + 4)); [now intros [= <-]|].
  rewrite slice_ok by lia. cbn [obind].
  rewrite to_array_ok by (rewrite length_firstn, length_skipn; lia). discriminate.
Qed.

Lemma decode_inputs_err (k : nat) (b : list byte) (off : nat)
    (acc : list TransactionInput) (e : BitcoinError) :
  decode_inputs k b off acc = Err e -> e = InsufficientBytes.
Proof.
  revert off acc; induction k as [|k IH]; intros off acc; cbn [decode_inputs];
    [discriminate|].
  destruct (slice_from b off) as [x|e'|] eqn:Ex; cbn [obind];
    [|now destruct (slice_from_not_err _ _ _ Ex)|discriminate].
  destruct (TransactionInput_from_bytes x) as [[i c]|e'|] eqn:Ei; cbn [obind].
  - apply IH.
  - intros [= <-]. exact (TransactionInput_from_bytes_err _ _ Ei).
  - discriminate.
Qed.

Lemma BitcoinTransaction_from_bytes_err (b : list byte) (e : BitcoinError) :
  BitcoinTransaction_from_bytes b = Err e -> e = InsufficientBytes.
Proof.
  unfold BitcoinTransaction_from_bytes.
  destruct (Nat.ltb (length b) 4); [now intros [= <-]|].
  destruct (slice b 0 4) as [x|e'|] eqn:E1; cbn [obind];
    [|now destruct (slice_not_err _ _ _ _ E1)|discriminate].
  destruct (to_array 4 x) as [a|e'|] eqn:E2; cbn [obind];
    [|now destruct (to_array_not_err _ _ _ E2)|discriminate].
  destruct (slice_from b 4) as [y|e'|] eqn:E3; cbn [obind];
    [|now destruct (slice_from_not_err _ _ _ E3)|discriminate].
  destruct (decode_compact_size _) as [[cnt w]|e'|] eqn:Ed; cbn [obind];
    [|intros [= <-]; exact (proj1 (decode_compact_size_err _ _ Ed))|discriminate].
  destruct (decode_inputs _ b _ []) as [[ins off]|e'|] eqn:Ei; cbn [obind];
    [|intros [= <-]; exact (decode_inputs_err _ _ _ _ _ Ei)|discriminate].
  destruct (Nat.ltb (length b) (off + 4)); [now intros [= <-]|].
  destruct (slice b off (off + 4)) as [z|e'|] eqn:E4; cbn [obind];
    [|now destruct (slice_not_err _ _ _ _ E4)|discriminate].
  destruct (to_array 4 z) as [c|e'|] eqn:E5; cbn [obind];
    [discriminate|now destruct (to_array_not_err _ _ _ E5)|discriminate].
Qed.

(** X7.  Every error of the binary decoders is [InsufficientBytes]:
    [InvalidFormat] is never returned, whatever the buffer. *)
Theorem decoders_error_kind (b : list byte) (e : BitcoinError) :
  (OutPoint_from_bytes b = Err e -> e = InsufficientBytes)
  /\ (Script_from_bytes b = Err e -> e = InsufficientBytes)
  /\ (TransactionInput_from_bytes b = Err e -> e = InsufficientBytes)
  /\ (BitcoinTransaction_from_bytes b = Err e -> e = InsufficientBytes).
Proof.
  split; [apply OutPoint_from_bytes_err|].
  split; [apply Script_from_bytes_err|].
  split; [apply TransactionInput_from_bytes_err|].
  apply BitcoinTransaction_from_bytes_err.
Qed.

Lemma decoders_error_kind_witness :
  BitcoinTransaction_from_bytes two_inputs_one_present = Err InsufficientBytes
  /\ InsufficientBytes = InsufficientBytes.
Proof.
  assert (E : BitcoinTransaction_from_bytes two_inputs_one_present = Err InsufficientBytes)
    by (vm_compute; reflexivity).
  split; [exact E|].
  exact (proj2 (proj2 (proj2 (decoders_error_kind two_inputs_one_present InsufficientBytes))) E).
Defined.

(** ** How many bytes the decoders consume *)

Lemma Script_from_bytes_consumed_script (b : list byte) (sc : Script) (n : nat) :
  Script_from_bytes b = Ok (sc, n) -> (1 + length (script_bytes sc) <= n <= length b)%nat.
Proof.
  intros E. pose proof (Script_from_bytes_consumed _ _ _ E) as Hn.
  destruct (proj1 (Script_from_bytes_cases b) _ _ E) as (len & p & Ed & -> & Hl & _).
  apply decode_compact_size_consumed in Ed as [[Hp _] _]. lia.
Qed.

Lemma TransactionInput_from_bytes_parts (b : list byte) (i : TransactionInput) (n : nat) :
  TransactionInput_from_bytes b = Ok (i, n) ->
  exists m, Script_from_bytes (skipn 36 b) = Ok (script_sig i, m)
    /\ n = (36 + m + 4)%nat /\ (n <= length b)%nat.
Proof.
  unfold TransactionInput_from_bytes.
  destruct (OutPoint_from_bytes b) as [[o k]| |] eqn:Eo; cbn [obind]; try discriminate.
  apply OutPoint_from_bytes_consumed in Eo as [-> Hl].
  rewrite slice_from_ok by exact Hl. cbn [obind].
  destruct (Script_from_bytes (skipn 36 b)) as [[sc m]| |]; cbn [obind]; try discriminate.
  destruct (Nat.ltb_spec (length b) (36 + m + 4)); [discriminate|].
  rewrite slice_ok by lia. cbn [obind].
  rewrite to_array_ok by (rewrite length_firstn, length_skipn; lia). cbn [obind].
  intros [= <- <-]. exists m. cbn [script_sig]. auto.
Qed.

Lemma decode_inputs_consumed (k : nat) (b : list byte) (off : nat)
    (acc is : list TransactionInput) (off' : nat) :
  (off <= length b)%nat -> decode_inputs k b off acc = Ok (is, off') ->
  length is = (length acc + k)%nat /\ (off + 41 * k <= off' <= length b)%nat.
Proof.
  revert off acc; induction k as [|k IH]; intros off acc Hoff; cbn [decode_inputs].
  - intros [= <- <-]. lia.
  - rewrite slice_from_ok by exact Hoff. cbn [obind].
    destruct (TransactionInput_from_bytes (skipn off b)) as [[i c]| |] eqn:Ei;
      cbn [obind]; try discriminate.
    destruct (TransactionInput_from_bytes_parts _ _ _ Ei) as (m & Es & -> & Hc).
    apply Script_from_bytes_consumed_script in Es. rewrite length_skipn in Hc.
    intros H. destruct (IH (off + (36 + m + 4))%nat (acc ++ [i]) ltac:(lia) H) as [H1 H2].
    rewrite length_app in H1. cbn [length] in H1. lia.
Qed.

(** X8.  Lower and upper bounds on what a successful decode consumes: a
    script at least its prefix byte and its body, an input at least 41
    bytes plus its script, and a transaction at least 9 bytes plus 41 per
    input, never more than the buffer; so however large the input count
    read from the buffer, a transaction decoded from [L] bytes has at most
    [(L - 9) / 41] inputs. *)
Theorem decoders_consumption (b : list byte) :
  (forall sc n, Script_from_bytes b = Ok (sc, n) ->
     (1 + length (script_bytes sc) <= n <= length b)%nat)
  /\ (forall i n, TransactionInput_from_bytes b = Ok (i, n) ->
     (41 + length (script_bytes (script_sig i)) <= n <= length b)%nat)
  /\ (forall t n, BitcoinTransaction_from_bytes b = Ok (t, n) ->
     (9 + 41 * length (inputs t) <= n <= length b)%nat).
Proof.
  split; [apply Script_from_bytes_consumed_script|].
  split.
  - intros i n E. destruct (TransactionInput_from_bytes_parts _ _ _ E) as (m & Es & -> & Hn).
    apply Script_from_bytes_consumed_script in Es. lia.
  - intros t n. unfold BitcoinTransaction_from_bytes.
    destruct (Nat.ltb_spec (length b) 4) as [H|H]; [discriminate|].
    rewrite slice_ok by lia. cbn [obind].
    rewrite to_array_ok by (rewrite length_firstn, length_skipn; lia). cbn [obind].
    rewrite slice_from_ok by lia. cbn [obind].
    destruct (decode_compact_size (skipn 4 b)) as [[cnt w]| |] eqn:Ed; cbn [obind];
      try discriminate.
    apply decode_compact_size_consumed in Ed as [[Hw1 _] Hw]. rewrite length_skipn in Hw.
    destruct (decode_inputs _ b (w + 4) []) as [[ins off]| |] eqn:Ei; cbn [obind];
      try discriminate.
    apply decode_inputs_consumed in Ei as [Hi Ho]; [|lia]. cbn [length] in Hi.
    destruct (Nat.ltb_spec (length b) (off + 4)); [discriminate|].
    rewrite slice_ok by lia. cbn [obind].
    rewrite to_array_ok by (rewrite length_firstn, length_skipn; lia). cbn [obind].
    intros [= <- <-]. cbn [inputs]. lia.
Qed.

Lemma decoders_consumption_witness :
  BitcoinTransaction_from_bytes (BitcoinTransaction_to_bytes sample_tx) = Ok (sample_tx, 50%nat)
  /\ (9 + 41 * 1 <= 50)%nat.
Proof.
  assert (E : BitcoinTransaction_from_bytes (BitcoinTransaction_to_bytes sample_tx)
              = Ok (sample_tx, 50%nat)) by (vm_compute; reflexivity).
  split; [exact E|].
  exact (proj1 (proj2 (proj2 (decoders_consumption _)) _ _ E)).
Defined.

(** ** The encodings are prefix-free *)

Lemma prefix_free_of_roundtrip {A : Type} (P : A -> Prop) (enc : A -> list byte)
    (decode : list byte -> outcome (A * nat)) :
  (forall a, P a -> decode (enc a) = Ok (a, length (enc a))) ->
  (forall b s r, decode b = Ok r -> decode (b ++ s) = Ok r) ->
  forall a1 a2 s, P a1 -> P a2 -> enc a1 ++ s = enc a2 -> a1 = a2 /\ s = [].
Proof.
  intros Hrt Happ a1 a2 s H1 H2 He.
  pose proof (Happ _ s _ (Hrt a1 H1)) as E1. rewrite He, (Hrt a2 H2) in E1.
  injection E1 as <- Hl. split; [reflexivity|].
  apply (f_equal (@length byte)) in He. rewrite length_app in He.
  destruct s; [reflexivity|]. cbn [length] in He. lia.
Qed.

(** X9.  No encoding of a value is a proper prefix of another's, and
    equal encodings come from equal values: [encode_compact_size] on
    [u64] values and [to_bytes] of [OutPoint], [Script],
    [TransactionInput] and [BitcoinTransaction] on values of their Rust
    types. *)
Theorem encodings_prefix_free :
  (forall n1 n2 s, 0 <= n1 < 2 ^ 64 -> 0 <= n2 < 2 ^ 64 ->
     encode_compact_size n1 ++ s = encode_compact_size n2 -> n1 = n2 /\ s = [])
  /\ (forall o1 o2 s, OutPoint_wf o1 -> OutPoint_wf o2 ->
     OutPoint_to_bytes o1 ++ s = OutPoint_to_bytes o2 -> o1 = o2 /\ s = [])
  /\ (forall sc1 sc2 s, Script_wf sc1 -> Script_wf sc2 ->
     Script_to_bytes sc1 ++ s = Script_to_bytes sc2 -> sc1 = sc2 /\ s = [])
  /\ (forall i1 i2 s, TransactionInput_wf i1 -> TransactionInput_wf i2 ->
     TransactionInput_to_bytes i1 ++ s = TransactionInput_to_bytes i2 -> i1 = i2 /\ s = [])
  /\ (forall t1 t2 s, BitcoinTransaction_wf t1 -> BitcoinTransaction_wf t2 ->
     BitcoinTransaction_to_bytes t1 ++ s = BitcoinTransaction_to_bytes t2
     -> t1 = t2 /\ s = []).
Proof.
  split; [|split; [|split; [|split]]].
  - apply (prefix_free_of_roundtrip (fun n => 0 <= n < 2 ^ 64) encode_compact_size
             decode_compact_size decode_compact_size_encode decode_compact_size_app).
  - apply (prefix_free_of_roundtrip OutPoint_wf OutPoint_to_bytes OutPoint_from_bytes);
      [|apply OutPoint_from_bytes_app].
    intros o Ho. rewrite (length_OutPoint_to_bytes o Ho).
    rewrite <- (app_nil_r (OutPoint_to_bytes o)). exact (OutPoint_roundtrip_app o [] Ho).
  - exact (prefix_free_of_roundtrip Script_wf Script_to_bytes Script_from_bytes
             Script_roundtrip Script_from_bytes_app).
  - exact (prefix_free_of_roundtrip TransactionInput_wf TransactionInput_to_bytes
             TransactionInput_from_bytes TransactionInput_roundtrip
             TransactionInput_from_bytes_app).
  - exact (prefix_free_of_roundtrip BitcoinTransaction_wf BitcoinTransaction_to_bytes
             BitcoinTransaction_from_bytes BitcoinTransaction_roundtrip
             BitcoinTransaction_from_bytes_app).
Qed.

Lemma encodings_prefix_free_witness :
  (sample_tx = sample_tx /\ @nil byte = [])
  /\ BitcoinTransaction_wf sample_tx.
Proof.
  pose proof sample_tx_wf as Ht.
  split; [|exact Ht].
  exact (proj2 (proj2 (proj2 (proj2 encodings_prefix_free))) sample_tx sample_tx []
           Ht Ht (app_nil_r _)).
Defined.

(** ** The text written by [Display for BitcoinTransaction] *)

Lemma count_nl_app (s1 s2 : string) :
  count_nl (String.append s1 s2) = (count_nl s1 + count_nl s2)%nat.
Proof. induction s1 as [|c s1 IH]; cbn [String.append count_nl]; lia. Qed.

Lemma count_nl_digits (d : Decimal.uint) :
  count_nl (DecimalString.NilEmpty.string_of_uint d) = O.
Proof. induction d; cbn [DecimalString.NilEmpty.string_of_uint]; auto. Qed.

Lemma count_nl_dec (n : Z) : count_nl (dec n) = O.
Proof.
  unfold dec, DecimalString.NilZero.string_of_uint.
  destruct (N.to_uint (Z.to_N n)); [reflexivity|..]; apply count_nl_digits.
Qed.

Lemma count_nl_hex_encode (l : list byte) : count_nl (hex_encode l) = O.
Proof.
  induction l as [|b l IH]; [reflexivity|].
  cbn [hex_encode count_nl]. rewrite IH. destruct b; reflexivity.
Qed.

Lemma count_nl_fmt_inputs (i : nat) (l : list TransactionInput) :
  count_nl (fmt_inputs i l) = (5 * length l)%nat.
Proof.
  revert i; induction l as [|input l IH]; intros i; [reflexivity|].
  cbn [fmt_inputs length]. unfold fmt_input, dec_nat.
  rewrite !count_nl_app, !count_nl_dec, !count_nl_hex_encode, IH. cbn. lia.
Qed.

Lemma to_uint_not_nil (n : N) : N.to_uint n <> Decimal.Nil.
Proof.
  intros H. pose proof (DecimalN.Unsigned.of_to n) as E. rewrite H in E.
  cbn in E. subst n. discriminate H.
Qed.

(** X10.  The text of [Display for BitcoinTransaction] has exactly
    [2 + 5 * inputs.len()] lines, each ended by ['\n'], whatever the field
    values (no printed number or hex string holds a line break); and a
    number it prints reads back as that number. *)
Theorem BitcoinTransaction_fmt_lines (t : BitcoinTransaction) :
  count_nl (BitcoinTransaction_fmt t) = (2 + 5 * length (inputs t))%nat
  /\ (forall n, 0 <= n ->
        exists d, DecimalString.NilZero.uint_of_string (dec n) = Some d
                  /\ Z.of_N (N.of_uint d) = n).
Proof.
  split.
  - unfold BitcoinTransaction_fmt.
    rewrite !count_nl_app, !count_nl_dec, count_nl_fmt_inputs. cbn. lia.
  - intros n Hn. exists (N.to_uint (Z.to_N n)). split.
    + apply DecimalString.NilZero.usu, to_uint_not_nil.
    + rewrite DecimalN.Unsigned.of_to. lia.
Qed.

Lemma BitcoinTransaction_fmt_lines_witness :
  0 <= 4294967295
  /\ (exists d, DecimalString.NilZero.uint_of_string (dec 4294967295) = Some d
                /\ Z.of_N (N.of_uint d) = 4294967295)
  /\ count_nl (BitcoinTransaction_fmt sample_tx) = 7%nat.
Proof.
  assert (H : 0 <= 4294967295) by lia.
  split; [exact H|].
  split; [exact (proj2 (BitcoinTransaction_fmt_lines sample_tx) _ H)|].
  exact (proj1 (BitcoinTransaction_fmt_lines sample_tx)).
Defined.

(** ** The text form of [Txid]: what deserialization accepts *)

Lemma hex_decode_pairs_length (n : nat) (s : string) (i : nat) (v : list byte) :
  String.length s = (2 * n)%nat -> hex_decode_pairs s i = ROk v -> length v = n.
Proof.
  revert s i v. induction n as [|n IH]; intros s i v Hl H.
  - destruct s; [|cbn in Hl; lia]. injection H as <-. reflexivity.
  - destruct s as [|c0 [|c1 s]]; cbn [String.length] in Hl; try lia.
    cbn [hex_decode_pairs] in H.
    destruct (hex_val c0 (2 * i)); [|discriminate].
    destruct (hex_val c1 (2 * i + 1)); [|discriminate].
    destruct (hex_decode_pairs s (S i)) as [rest|] eqn:E; [|discriminate].
    injection H as <-. cbn [length]. f_equal. apply (IH s (S i)); [lia|exact E].
Qed.

(** X11.  [Txid] deserialization accepts only texts of 64 characters,
    and the [Txid] it returns has 32 bytes and serializes to a text that
    deserializes to it again (the lowercase form of an accepted text). *)
Theorem Txid_deserialize_accepts (s : string) (t : Txid) :
  Txid_deserialize s = ROk t ->
  String.length s = 64%nat /\ length (txid0 t) = 32%nat
  /\ Txid_deserialize (Txid_serialize t) = ROk t.
Proof.
  unfold Txid_deserialize.
  destruct (hex_decode s) as [v|e] eqn:E; [|discriminate].
  destruct (Nat.eqb_spec (length v) 32) as [Hv|Hv]; [|discriminate].
  cbn [negb]. intros [= <-]. cbn [txid0].
  unfold hex_decode in E.
  destruct (Nat.odd (String.length s)) eqn:Ho; [discriminate|].
  assert (He : Nat.even (String.length s) = true)
    by (rewrite <- Nat.negb_odd, Ho; reflexivity).
  apply Nat.even_spec in He as [n Hn].
  pose proof (hex_decode_pairs_length n s 0 v Hn E) as Hl.
  split; [lia|]. split; [exact Hv|].
  unfold Txid_serialize. cbn [txid0]. rewrite hex_decode_encode, Hv. reflexivity.
Qed.

Lemma Txid_deserialize_accepts_witness :
  Txid_deserialize (string_repeat 64 "A") = ROk (mkTxid (repeat xaa 32))
  /\ String.length (string_repeat 64 "A") = 64%nat.
Proof.
  assert (E : Txid_deserialize (string_repeat 64 "A") = ROk (mkTxid (repeat xaa 32)))
    by reflexivity.
  split; [exact E|].
  exact (proj1 (Txid_deserialize_accepts _ _ E)).
Defined.

(** ** Decoding one encoding after another *)

(** X12.  A buffer holding encoded transactions one after another is
    read by calling [BitcoinTransaction::from_bytes] again from the
    consumed count: the first call returns the first transaction and its
    length, the call on the rest the second. *)
Theorem BitcoinTransaction_stream (t1 t2 : BitcoinTransaction) (s : list byte) :
  BitcoinTransaction_wf t1 -> BitcoinTransaction_wf t2 ->
  let b := BitcoinTransaction_to_bytes t1 ++ BitcoinTransaction_to_bytes t2 ++ s in
  exists n1 n2,
    BitcoinTransaction_from_bytes b = Ok (t1, n1)
    /\ BitcoinTransaction_from_bytes (skipn n1 b) = Ok (t2, n2)
    /\ (n1 + n2 + length s)%nat = length b.
Proof.
  intros H1 H2 b.
  exists (length (BitcoinTransaction_to_bytes t1)), (length (BitcoinTransaction_to_bytes t2)).
  unfold b. split; [|split].
  - exact (BitcoinTransaction_from_bytes_app _ _ _ (BitcoinTransaction_roundtrip t1 H1)).
  - rewrite skipn_app, skipn_all2, Nat.sub_diag, skipn_0, app_nil_l by lia.
    exact (BitcoinTransaction_from_bytes_app _ _ _ (BitcoinTransaction_roundtrip t2 H2)).
  - rewrite !length_app. lia.
Qed.

Lemma BitcoinTransaction_stream_witness :
  BitcoinTransaction_wf sample_tx
  /\ exists n1 n2,
       BitcoinTransaction_from_bytes
         (BitcoinTransaction_to_bytes sample_tx ++ BitcoinTransaction_to_bytes sample_tx ++ [])
       = Ok (sample_tx, n1)
       /\ (n1 + n2 + 0)%nat = 100%nat.
Proof.
  pose proof sample_tx_wf as H.
  split; [exact H|].
  destruct (BitcoinTransaction_stream sample_tx sample_tx [] H H) as (n1 & n2 & E1 & _ & Hl).
  exists n1, n2. split; [exact E1|]. etransitivity; [exact Hl|]. vm_compute. reflexivity.
Defined.

(** ** Letter case in the text form of [Txid] *)

Lemma hex_decode_pairs_byte_upper (b : byte) (s : string) (i : nat) :
  hex_decode_pairs
    (String (hex_char_upper (bv b / 16)) (String (hex_char_upper (bv b mod 16)) s)) i
  = match hex_decode_pairs s (S i) with
    | RErr e => RErr e
    | ROk rest => ROk (b :: rest)
    end.
Proof. destruct b; reflexivity. Qed.

Lemma length_hex_encode_upper (l : list byte) :
  String.length (hex_encode_upper l) = (2 * length l)%nat.
Proof.
  induction l as [|b l IH]; cbn [hex_encode_upper String.length length]; lia.
Qed.

(** X13.  [Txid] deserialization ignores letter case: the uppercase hex
    text of any byte string is read exactly as its lowercase text, the
    form serialization writes. *)
Theorem Txid_deserialize_case (l : list byte) :
  Txid_deserialize (hex_encode_upper l) = Txid_deserialize (hex_encode l)
  /\ Txid_deserialize (hex_encode_upper l) = Txid_deserialize (Txid_serialize (mkTxid l)).
Proof.
  assert (E : forall i, hex_decode_pairs (hex_encode_upper l) i = ROk l).
  { induction l as [|b l IH]; intros i; [reflexivity|].
    cbn [hex_encode_upper]. now rewrite hex_decode_pairs_byte_upper, IH. }
  assert (Eu : hex_decode (hex_encode_upper l) = ROk l).
  { unfold hex_decode. rewrite length_hex_encode_upper, Nat.odd_mul, Nat.odd_2.
    apply E. }
  unfold Txid_deserialize, Txid_serialize. cbn [txid0].
  rewrite Eu, hex_decode_encode. split; reflexivity.
Qed.

(** ** Where [Txid] deserialization reports a bad character *)

Lemma hex_val_hex (c : ascii) (i : nat) :
  is_hex_char c = true -> exists v, hex_val c i = ROk v.
Proof.
  destruct c as [[] [] [] [] [] [] [] []]; (discriminate || (intros _; eexists; reflexivity)).
Qed.

Lemma hex_decode_pairs_first_bad (n : nat) (s : string) (k j : nat) (c : ascii) :
  String.length s = (2 * n)%nat -> String.get j s = Some c -> is_hex_char c = false ->
  (forall j' c', (j' < j)%nat -> String.get j' s = Some c' -> is_hex_char c' = true) ->
  hex_decode_pairs s k = RErr (InvalidHexCharacter c (2 * k + j)).
Proof.
  revert s k j. induction n as [|n IH]; intros s k j Hl Hj Hc Hpre.
  - destruct s; [discriminate|]. cbn in Hl. lia.
  - destruct s as [|c0 [|c1 s]]; cbn [String.length] in Hl; try lia.
    cbn [hex_decode_pairs].
    destruct j as [|[|j]]; cbn [String.get] in Hj.
    + injection Hj as ->. rewrite hex_val_not_hex by exact Hc.
      now rewrite Nat.add_0_r.
    + injection Hj as ->.
      destruct (hex_val_hex c0 (2 * k) (Hpre 0%nat c0 ltac:(lia) eq_refl)) as [v0 ->].
      now rewrite hex_val_not_hex by exact Hc.
    + destruct (hex_val_hex c0 (2 * k) (Hpre 0%nat c0 ltac:(lia) eq_refl)) as [v0 ->].
      destruct (hex_val_hex c1 (2 * k + 1) (Hpre 1%nat c1 ltac:(lia) eq_refl)) as [v1 ->].
      rewrite (IH s (S k) j ltac:(lia) Hj Hc).
      * f_equal. f_equal. lia.
      * intros j' c' Hj' Hg. exact (Hpre (S (S j')) c' ltac:(lia) Hg).
Qed.

(** X14.  On a text of even length, [Txid] deserialization fails at the
    first character that is not a hexadecimal digit, and its error names
    that character and its position in the text. *)
Theorem Txid_deserialize_first_bad_char (s : string) (j : nat) (c : ascii) :
  Nat.even (String.length s) = true ->
  String.get j s = Some c -> is_hex_char c = false ->
  (forall j' c', (j' < j)%nat -> String.get j' s = Some c' -> is_hex_char c' = true) ->
  Txid_deserialize s = RErr (Custom_from (InvalidHexCharacter c j)).
Proof.
  intros He Hj Hc Hpre. unfold Txid_deserialize, hex_decode.
  rewrite <- Nat.negb_even, He. cbn [negb].
  apply Nat.even_spec in He as [n Hn].
  now rewrite (hex_decode_pairs_first_bad n s 0 j c Hn Hj Hc Hpre).
Qed.

Lemma Txid_deserialize_first_bad_char_witness :
  Txid_deserialize "0a0gzz" = RErr (Custom_from (InvalidHexCharacter "g" 3)).
Proof.
  apply (Txid_deserialize_first_bad_char "0a0gzz" 3 "g"); [reflexivity|reflexivity|reflexivity|].
  intros j' c' Hj' Hg.
  destruct j' as [|[|[|j']]]; cbn in Hg; try lia; injection Hg as <-; reflexivity.
Defined.
